(** * Todo list: ordered-list maintenance and sign-in merge

    A shallow embedding of the list logic of the React component [App]
    (reindexing, completion partition, add / toggle / edit / delete /
    drag-reorder handlers, write-through [syncAll]) and of the
    [loadAndMerge] effect that merges the guest list into the remote
    table on sign-in; then of the rendered list, the session listener,
    sign-out and the authentication forms around them.

    Conventions of the embedding:
    - a JS string that is inspected ([draft], [content]) is a list of
      UTF-16 code units; identifiers and error messages are only compared
      or stored and are Rocq strings;
    - [position] is an integer ([Z]); array indices are [nat], and the
      [-1] of [findIndex] / [indexOf] is [None];
    - the component state is an explicit record threaded through the
      handlers; remote calls are appended to a log of issued requests and
      their replies are inputs of the continuation that the source
      registers with [.then] or resumes after [await]. *)

From stdpp Require Import gmap strings list fin_maps sorting.

(** ** Data model *)

Abbreviation jsstring := (list N).

Definition str (s : string) : jsstring :=
  Ascii.N_of_ascii <$> String.list_ascii_of_string s.

Record Item := mkItem {
  id : string;
  content : jsstring;
  isCompleted : bool;
  position : Z
}.

#[global] Instance Item_eq_dec : EqDecision Item.
Proof. solve_decision. Defined.

(** [{ ...item, isCompleted }], [{ ...item, content }], [{ ...item, position }] *)
Definition with_isCompleted (item : Item) (b : bool) : Item :=
  mkItem (id item) (content item) b (position item).
Definition with_content (item : Item) (c : jsstring) : Item :=
  mkItem (id item) c (isCompleted item) (position item).
Definition with_position (item : Item) (p : Z) : Item :=
  mkItem (id item) (content item) (isCompleted item) p.

(** ** OrderedItemList: [reindex], [orderByCompletion] *)

Definition reindex (itemsList : list Item) : list Item :=
  imap (λ index item, with_position item (Z.of_nat index)) itemsList.

Definition actives (itemsList : list Item) : list Item :=
  filter (λ item, isCompleted item = false) itemsList.
Definition completeds (itemsList : list Item) : list Item :=
  filter (λ item, isCompleted item = true) itemsList.

Definition orderByCompletion (itemsList : list Item) : list Item :=
  reindex (actives itemsList ++ completeds itemsList).

(** The part of an item that is its identity and payload, without the
    advisory [position]. *)
Definition payload (item : Item) : string * jsstring * bool :=
  (id item, content item, isCompleted item).

(** Normal form of a list: an active run followed by a completed run,
    and [position] equal to the index. *)
Definition partitioned (l : list Item) : Prop :=
  ∃ a c, l = a ++ c
         ∧ Forall (λ item, isCompleted item = false) a
         ∧ Forall (λ item, isCompleted item = true) c.

Definition dense (l : list Item) : Prop :=
  ∀ i item, l !! i = Some item → position item = Z.of_nat i.

Definition normalized (l : list Item) : Prop := partitioned l ∧ dense l.

(** Executable check of the same normal form. *)
Fixpoint no_active_after_completed (seen_completed : bool) (l : list Item) : bool :=
  match l with
  | [] => true
  | item :: l' =>
      if isCompleted item then no_active_after_completed true l'
      else negb seen_completed && no_active_after_completed seen_completed l'
  end.

Definition is_normalized (l : list Item) : bool :=
  no_active_after_completed false l
  && bool_decide (position <$> l = Z.of_nat <$> seq 0 (length l)).

(** ** JS string trimming

    [String.prototype.trim] strips ECMAScript WhiteSpace and
    LineTerminator code points from both ends. *)

Definition isWhiteSpace (c : N) : bool :=
  bool_decide (c ∈ [0x9; 0xA; 0xB; 0xC; 0xD; 0x20; 0xA0; 0x1680; 0x2028;
                    0x2029; 0x202F; 0x205F; 0x3000; 0xFEFF]%N)
  || ((0x2000 <=? c)%N && (c <=? 0x200A)%N).

Fixpoint trimStart (s : jsstring) : jsstring :=
  match s with
  | [] => []
  | c :: s' => if isWhiteSpace c then trimStart s' else s
  end.

Definition trimEnd (s : jsstring) : jsstring := reverse (trimStart (reverse s)).

Definition trim (s : jsstring) : jsstring := trimEnd (trimStart s).

(** Truthiness of a JS string: the empty string is falsy. *)
Definition truthy (s : jsstring) : bool :=
  match s with [] => false | _ => true end.

(** ** Array helpers *)

(** [array.findIndex(p)] and [array.indexOf(x)]. *)
Definition findIndex {A} (P : A → Prop) `{∀ x, Decision (P x)} (l : list A) : option nat :=
  fst <$> list_find P l.

Definition indexOf `{EqDecision A} (l : list A) (x : A) : option nat :=
  findIndex (λ y, y = x) l.

(** [array.find(p)] *)
Definition find {A} (P : A → Prop) `{∀ x, Decision (P x)} (l : list A) : option A :=
  snd <$> list_find P l.

(** [array.splice(start, 0, x)] on a copy: insert [x] at index [start]
    (clamped to the length). *)
Definition splice_in {A} (l : list A) (start : nat) (x : A) : list A :=
  take start l ++ x :: drop start l.

(** [array.splice(start, 1)] on a copy: the array without index [start]. *)
Definition splice_out {A} (l : list A) (start : nat) : list A :=
  take start l ++ drop (S start) l.

(** [arrayMove(array, from, to)] of the drag library, for [0 <= from, to]:
    [newArray.splice(to, 0, newArray.splice(from, 1)[0])].  With [from]
    out of range nothing is removed; [onDragEnd] never calls it so. *)
Definition arrayMove {A} (array : list A) (from to : nat) : list A :=
  match array !! from with
  | Some x => splice_in (splice_out array from) to x
  | None => array
  end.

(** ** Remote rows and requests *)

Record Row := mkRow {
  row_id : string;
  row_title : jsstring;
  row_completed : bool;
  row_position : option Z       (* [None]: not a number *)
}.

Record InsertRow := mkInsertRow {
  ins_title : jsstring;
  ins_completed : bool;
  ins_position : Z;
  ins_user_id : string
}.

Record UpsertRow := mkUpsertRow {
  up_id : string;
  up_title : jsstring;
  up_completed : bool;
  up_position : Z;
  up_user_id : string
}.

Inductive Request :=
  | Select (user_id : string)
  | Insert (rows : list InsertRow)
  | Upsert (rows : list UpsertRow)
  | Delete (row : string).

#[global] Instance Row_eq_dec : EqDecision Row.
Proof. solve_decision. Defined.
#[global] Instance InsertRow_eq_dec : EqDecision InsertRow.
Proof. solve_decision. Defined.
#[global] Instance UpsertRow_eq_dec : EqDecision UpsertRow.
Proof. solve_decision. Defined.
#[global] Instance Request_eq_dec : EqDecision Request.
Proof. solve_decision. Defined.

(** The [{ data, error }] pair a query resolves to; [error] carries
    [error.message]. *)
Record Reply := mkReply {
  data : option (list Row);
  error : option string
}.

(** ** Component state *)

(** The guest blob under [LOCAL_STORAGE_KEY]: missing (or empty),
    present but not a JSON array, or a stored array of items. *)
Inductive Blob :=
  | Absent
  | Malformed
  | Stored (l : list Item).

Record AppState := mkApp {
  items : list Item;
  draft : jsstring;
  editingId : option string;
  editingText : jsstring;
  activeId : option string;
  session : option string;      (* [session.user.id] when signed in *)
  isLoading : bool;
  dataError : string;
  hasSupabase : bool;           (* [Boolean(supabase)] *)
  hasLocalStorage : bool;       (* [hasLocalStorage()] *)
  storageWritable : bool;       (* [setItem] does not throw *)
  guestBlob : Blob;
  requests : list Request       (* remote calls issued so far, oldest first *)
}.

Definition setItems (st : AppState) (l : list Item) : AppState :=
  mkApp l (draft st) (editingId st) (editingText st) (activeId st) (session st)
        (isLoading st) (dataError st) (hasSupabase st) (hasLocalStorage st)
        (storageWritable st) (guestBlob st) (requests st).
Definition setDraft (st : AppState) (d : jsstring) : AppState :=
  mkApp (items st) d (editingId st) (editingText st) (activeId st) (session st)
        (isLoading st) (dataError st) (hasSupabase st) (hasLocalStorage st)
        (storageWritable st) (guestBlob st) (requests st).
Definition setEditingId (st : AppState) (e : option string) : AppState :=
  mkApp (items st) (draft st) e (editingText st) (activeId st) (session st)
        (isLoading st) (dataError st) (hasSupabase st) (hasLocalStorage st)
        (storageWritable st) (guestBlob st) (requests st).
Definition setActiveId (st : AppState) (a : option string) : AppState :=
  mkApp (items st) (draft st) (editingId st) (editingText st) a (session st)
        (isLoading st) (dataError st) (hasSupabase st) (hasLocalStorage st)
        (storageWritable st) (guestBlob st) (requests st).
Definition setIsLoading (st : AppState) (b : bool) : AppState :=
  mkApp (items st) (draft st) (editingId st) (editingText st) (activeId st) (session st)
        b (dataError st) (hasSupabase st) (hasLocalStorage st)
        (storageWritable st) (guestBlob st) (requests st).
Definition setDataError (st : AppState) (m : string) : AppState :=
  mkApp (items st) (draft st) (editingId st) (editingText st) (activeId st) (session st)
        (isLoading st) m (hasSupabase st) (hasLocalStorage st)
        (storageWritable st) (guestBlob st) (requests st).
Definition setGuestBlob (st : AppState) (b : Blob) : AppState :=
  mkApp (items st) (draft st) (editingId st) (editingText st) (activeId st) (session st)
        (isLoading st) (dataError st) (hasSupabase st) (hasLocalStorage st)
        (storageWritable st) b (requests st).
Definition issue (st : AppState) (r : Request) : AppState :=
  mkApp (items st) (draft st) (editingId st) (editingText st) (activeId st) (session st)
        (isLoading st) (dataError st) (hasSupabase st) (hasLocalStorage st)
        (storageWritable st) (guestBlob st) (requests st ++ [r]).

(** ** LocalStore *)

Definition loadGuestItems (st : AppState) : list Item :=
  if hasLocalStorage st then
    match guestBlob st with
    | Stored l => l
    | Absent | Malformed => []
    end
  else [].

Definition persistGuestItems (st : AppState) (nextItems : list Item) : AppState :=
  if hasLocalStorage st then
    if storageWritable st then setGuestBlob st (Stored nextItems) else st
  else st.

Definition clearGuestItems (st : AppState) : AppState :=
  if hasLocalStorage st then setGuestBlob st Absent else st.

(** [!session || !hasSupabase] *)
Definition guestMode (env : AppState) : bool :=
  negb (bool_decide (is_Some (session env))) || negb (hasSupabase env).

(** ** Write-through *)

Definition upsertPayload (user : string) (l : list Item) : list UpsertRow :=
  (λ item, mkUpsertRow (id item) (content item) (isCompleted item) (position item) user) <$> l.

(** [syncAll], with the render whose closure it belongs to ([env]: its
    [session] and [hasSupabase]) kept apart from the state it updates. *)
Definition syncAll_in (env : AppState) (nextItems : list Item) (st : AppState) : AppState :=
  let withPositions := reindex nextItems in
  let st := setItems st withPositions in
  match session env with
  | Some user =>
      if hasSupabase env then issue st (Upsert (upsertPayload user withPositions))
      else persistGuestItems st withPositions
  | None => persistGuestItems st withPositions
  end.

Definition syncAll (st : AppState) (nextItems : list Item) : AppState :=
  syncAll_in st nextItems st.

(** The [.then] callback of a fire-and-forget upsert or delete. *)
Definition writeThrough_then (error : option string) (st : AppState) : AppState :=
  match error with
  | Some message => setDataError st message
  | None => st
  end.

(** ** Handlers

    [setItems(prev => ...)] runs its updater on the current list.  The
    updaters of toggle, delete, edit and drag call [syncAll] (which
    itself stores the reindexed list and writes it through) and then
    return the list they built.  An [Outcome] keeps both: the state left
    by the handler's own calls ([after]) and the updater's return value
    ([returned], [None] when no updater ran). *)

Record Outcome := mkOutcome {
  after : AppState;
  returned : option (list Item)
}.



Definition insertIndexOf (l : list Item) : nat :=
  match findIndex (λ i, isCompleted i = true) l with
  | None => length l
  | Some firstCompletedIndex => firstCompletedIndex
  end.

(** [handleSubmit].  [localId] is the value of [generateLocalId()].  In
    the signed-in branch the insert is only issued here; its [.then]
    callback is [handleSubmit_then]. *)
Definition handleSubmit (st : AppState) (localId : string) : AppState :=
  let content := trim (draft st) in
  if negb (truthy content) then st
  else
    let insertIndex := insertIndexOf (items st) in
    match session st with
    | Some user =>
        if hasSupabase st then
          issue st (Insert [mkInsertRow content false (Z.of_nat insertIndex) user])
        else
          let newItem := mkItem localId content false (Z.of_nat insertIndex) in
          setDraft (syncAll st (splice_in (items st) insertIndex newItem)) []
    | None =>
        let newItem := mkItem localId content false (Z.of_nat insertIndex) in
        setDraft (syncAll st (splice_in (items st) insertIndex newItem)) []
    end.

(** The callback of the insert issued by [handleSubmit] in render [env]:
    [items], [insertIndex] and [syncAll] are those of [env]. *)
Definition handleSubmit_then (env : AppState) (reply : Reply) (st : AppState) : AppState :=
  match error reply with
  | Some message => setDataError st message
  | None =>
      match data reply ≫= head with
      | None => st
      | Some inserted =>
          let insertIndex := insertIndexOf (items env) in
          let newItem := mkItem (row_id inserted) (row_title inserted)
                                (row_completed inserted) (Z.of_nat insertIndex) in
          setDraft (syncAll_in env (splice_in (items env) insertIndex newItem) st) []
      end
  end.

Definition toggled (prev : list Item) (tid : string) (isCompleted : bool) : list Item :=
  (λ item, if decide (id item ≠ tid) then item else with_isCompleted item isCompleted) <$> prev.

Definition handleToggle (st : AppState) (tid : string) (isCompleted : bool) : Outcome :=
  let updated := toggled (items st) tid isCompleted in
  let nextItems := actives updated ++ completeds updated in
  mkOutcome (syncAll st nextItems) (Some nextItems).

Definition handleDelete (st : AppState) (did : string) : Outcome :=
  let st1 :=
    if hasSupabase st && bool_decide (is_Some (session st))
    then issue st (Delete did) else st in
  let nextItems := filter (λ item, id item ≠ did) (items st1) in
  mkOutcome (syncAll st1 nextItems) (Some nextItems).

Definition commitEdit (st : AppState) (eid : string) : Outcome :=
  let nextContent := trim (editingText st) in
  if negb (truthy nextContent) then mkOutcome (setEditingId st None) None
  else
    let nextItems :=
      (λ item, if decide (id item = eid) then with_content item nextContent else item)
        <$> items st in
    mkOutcome (setEditingId (syncAll st nextItems) None) (Some nextItems).

Definition onDragStart (st : AppState) (active : string) : AppState :=
  setEditingId (setActiveId st (Some active)) None.

Definition onDragCancel (st : AppState) : AppState := setActiveId st None.

(** [new Map(prev.map((i) => [i.id, i]))]: a later entry replaces an
    earlier one with the same key. *)
Definition byId (prev : list Item) : gmap string Item :=
  foldl (λ m i, <[id i := i]> m) ∅ prev.

(** The updater of [onDragEnd]: [None] stands for [return prev] (no
    [syncAll]), [Some nextItems] for the reordered list.  Every id that
    is looked up comes from [prev], so [byId.get] always finds an item
    and [omap] drops nothing (lemma [dragUpdater_length]). *)
Definition dragUpdater (prev : list Item) (active over : string) : option (list Item) :=
  activeItem ← find (λ i, id i = active) prev;
  overItem ← find (λ i, id i = over) prev;
  let activeIds := id <$> actives prev in
  let completedIds := id <$> completeds prev in
  let segmentIds := if isCompleted activeItem then completedIds else activeIds in
  fromIndex ← indexOf segmentIds active;
  if negb (bool_decide (isCompleted activeItem = isCompleted overItem)) then None
  else
    toIndex ← indexOf segmentIds over;
    let reorderedSegment := arrayMove segmentIds fromIndex toIndex in
    let nextActiveIds := if isCompleted activeItem then activeIds else reorderedSegment in
    let nextCompletedIds := if isCompleted activeItem then reorderedSegment else completedIds in
    Some (omap (λ k, byId prev !! k) (nextActiveIds ++ nextCompletedIds)).

Definition onDragEnd (st : AppState) (active : string) (over : option string) : Outcome :=
  let st := setActiveId st None in
  match over with
  | None => mkOutcome st None
  | Some over =>
      if decide (active = over) then mkOutcome st None
      else
        match dragUpdater (items st) active over with
        | None => mkOutcome st (Some (items st))
        | Some nextItems => mkOutcome (syncAll st nextItems) (Some nextItems)
        end
  end.

(** ** Sign-in merge: [normalizeRows] and [loadAndMerge] *)

(** [Array.prototype.sort] with the comparator [a.position - b.position]
    is a stable sort by [position]; insertion from the right is one. *)
Fixpoint insertByPosition (x : Item) (l : list Item) : list Item :=
  match l with
  | [] => [x]
  | y :: l' =>
      if (position x <=? position y)%Z then x :: y :: l'
      else y :: insertByPosition x l'
  end.

Definition sortByPosition (l : list Item) : list Item :=
  foldr insertByPosition [] l.

Definition normalizeRows (rows : list Row) : list Item :=
  sortByPosition
    (imap (λ index row,
             mkItem (row_id row) (row_title row) (row_completed row)
                    (default (Z.of_nat index) (row_position row)))
          rows).

(** The suspension point at which an invocation of [loadAndMerge] is
    waiting, with the locals its continuation uses. *)
Inductive MergePoint :=
  | AtFetch (guestItems : list Item)
  | AtInsert (existing : list Item)
  | AtRefetch (existing : list Item)
  | Returned.

(** One run of the effect: its [cancelled] flag, where it is, the user
    of the session it was started for, and how many of its un-awaited
    write-back upserts have not been answered yet. *)
Record Merge := mkMerge {
  cancelled : bool;
  point : MergePoint;
  user : string;
  writebacks : nat
}.

Definition insertPayload (user : string) (existing guestItems : list Item) : list InsertRow :=
  imap (λ index item,
          mkInsertRow (content item) (isCompleted item)
                      (Z.of_nat (length existing + index)) user)
       guestItems.

(** The effect body up to the first [await].  [None]: the effect
    returned at its guard and started nothing. *)
Definition loadAndMerge (st : AppState) : option (AppState * Merge) :=
  match session st with
  | Some user =>
      if hasSupabase st then
        let st := setDataError (setIsLoading st true) "" in
        let guestItems := reindex (loadGuestItems st) in
        Some (issue st (Select user), mkMerge false (AtFetch guestItems) user 0)
      else None
  | None => None
  end.

(** The cleanup function of the effect. *)
Definition cleanup (m : Merge) : Merge :=
  mkMerge true (point m) (user m) (writebacks m).

Definition moveTo (m : Merge) (p : MergePoint) : Merge :=
  mkMerge (cancelled m) p (user m) (writebacks m).

Definition writeBack (m : Merge) (p : MergePoint) : Merge :=
  mkMerge (cancelled m) p (user m) (S (writebacks m)).

(** After the first [select] resolves. *)
Definition afterFetch (guestItems : list Item) (reply : Reply)
    (m : Merge) (st : AppState) : AppState * Merge :=
  if cancelled m then (st, moveTo m Returned)
  else
    match error reply with
    | Some message =>
        (setIsLoading (setItems (setDataError st message) []) false, moveTo m Returned)
    | None =>
        let existing := orderByCompletion (normalizeRows (default [] (data reply))) in
        match guestItems with
        | [] =>
            let st := setItems st existing in
            let st := issue st (Upsert (upsertPayload (user m) existing)) in
            (setIsLoading st false, writeBack m Returned)
        | _ :: _ =>
            (issue st (Insert (insertPayload (user m) existing guestItems)),
             moveTo m (AtInsert existing))
        end
    end.

(** After the bulk [insert] resolves. *)
Definition afterInsert (existing : list Item) (insertError : option string)
    (m : Merge) (st : AppState) : AppState * Merge :=
  if cancelled m then (st, moveTo m Returned)
  else
    match insertError with
    | Some message =>
        (setIsLoading (setItems (setDataError st message) existing) false,
         moveTo m Returned)
    | None =>
        let st := clearGuestItems st in
        (issue st (Select (user m)), moveTo m (AtRefetch existing))
    end.

(** After the second [select] resolves. *)
Definition afterRefetch (existing : list Item) (reply : Reply)
    (m : Merge) (st : AppState) : AppState * Merge :=
  if cancelled m then (st, moveTo m Returned)
  else
    match error reply with
    | Some message =>
        (setIsLoading (setItems (setDataError st message) existing) false,
         moveTo m Returned)
    | None =>
        match data reply with
        | Some refreshed =>
            let ordered := orderByCompletion (normalizeRows refreshed) in
            let st := setItems st ordered in
            let st := issue st (Upsert (upsertPayload (user m) ordered)) in
            (setIsLoading st false, writeBack m Returned)
        | None => (setIsLoading st false, moveTo m Returned)
        end
    end.

(** What can happen to a started invocation: its cleanup runs, the
    request it awaits resolves, or one of its write-back upserts
    resolves. *)
Inductive Event :=
  | Cancel
  | SelectReplied (reply : Reply)
  | InsertReplied (insertError : option string)
  | WritebackReplied (upsertError : option string).

Definition step (c : AppState * Merge) (e : Event) : AppState * Merge :=
  let '(st, m) := c in
  match e, point m with
  | Cancel, _ => (st, cleanup m)
  | SelectReplied reply, AtFetch guestItems => afterFetch guestItems reply m st
  | SelectReplied reply, AtRefetch existing => afterRefetch existing reply m st
  | InsertReplied insertError, AtInsert existing => afterInsert existing insertError m st
  | WritebackReplied upsertError, _ =>
      match writebacks m with
      | S n => (writeThrough_then upsertError st,
                mkMerge (cancelled m) (point m) (user m) n)
      | O => (st, m)
      end
  | _, _ => (st, m)
  end.

Definition run (c : AppState * Merge) (es : list Event) : AppState * Merge :=
  foldl step c es.

(** ** Drag reorder as the specification words it

    "Removes [movedId] from its segment's id sequence and reinserts it at
    [targetId]'s position within that same segment (delete-then-insert,
    not swap), then reassembles the full list as active-segment ++
    completed-segment and reindexes."  Written on the items of the
    segment, without the id map of the source. *)

Definition moveWithin_spec (segment : list Item) (movedId targetId : string) : list Item :=
  match find (λ i, id i = movedId) segment,
        findIndex (λ i, id i = targetId) segment with
  | Some moved, Some targetPosition =>
      let without := filter (λ i, id i ≠ movedId) segment in
      take targetPosition without ++ moved :: drop targetPosition without
  | _, _ => segment
  end.

Definition reassembled_spec (l : list Item) (movedId targetId : string) : list Item :=
  match find (λ i, id i = movedId) l with
  | Some moved =>
      if isCompleted moved
      then actives l ++ moveWithin_spec (completeds l) movedId targetId
      else moveWithin_spec (actives l) movedId targetId ++ completeds l
  | None => l
  end.


(** ** What a handler leaves behind

    The list stored by the handler's [syncAll] is in normal form, and the
    list its updater returned, when one ran, is partitioned and is that
    same list before reindexing. *)


(** ** The rendered list and inline editing *)

(** [visibleItems]: the list under the current [filter] ("all",
    "active" or "completed"; anything else shows everything). *)
Definition visibleItems (flt : string) (l : list Item) : list Item :=
  if decide (flt = "active") then actives l
  else if decide (flt = "completed") then completeds l
  else l.

Definition setEditingText (st : AppState) (t : jsstring) : AppState :=
  mkApp (items st) (draft st) (editingId st) t (activeId st) (session st)
        (isLoading st) (dataError st) (hasSupabase st) (hasLocalStorage st)
        (storageWritable st) (guestBlob st) (requests st).

Definition setSession (st : AppState) (s : option string) : AppState :=
  mkApp (items st) (draft st) (editingId st) (editingText st) (activeId st) s
        (isLoading st) (dataError st) (hasSupabase st) (hasLocalStorage st)
        (storageWritable st) (guestBlob st) (requests st).

(** Clicking an item's text (or pressing Enter on it) in
    [SortableTodoItem]: [setEditingId(item.id); setEditingText(item.content)]. *)
Definition startEdit (st : AppState) (item : Item) : AppState :=
  setEditingText (setEditingId st (Some (id item))) (content item).

Definition handleEditKeyDown (st : AppState) (key : string) (eid : string) : Outcome :=
  if decide (key = "Enter") then commitEdit st eid
  else if decide (key = "Escape") then mkOutcome (setEditingId st None) None
  else mkOutcome st None.

(** Content as the add and edit handlers produce it: trimmed and not
    empty. *)
Definition trimmed_content (l : list Item) : Prop :=
  Forall (λ item, content item ≠ [] ∧ trim (content item) = content item) l.

(** ** Rows read back *)

(** One element of the [map] in [normalizeRows]. *)
Definition itemOfRow (index : nat) (row : Row) : Item :=
  mkItem (row_id row) (row_title row) (row_completed row)
         (default (Z.of_nat index) (row_position row)).

(** The stored row of an upserted one, as a later [select] of
    [id, title, completed, position] returns it. *)
Definition rowOfUpsert (r : UpsertRow) : Row :=
  mkRow (up_id r) (up_title r) (up_completed r) (Some (up_position r)).

(** The requests one run of [loadAndMerge] can have issued after its
    first [select]. *)
Definition merge_protocol (issued : list Request) : bool :=
  match issued with
  | [] | [Upsert _] | [Insert _] | [Insert _; Select _]
  | [Insert _; Select _; Upsert _] => true
  | _ => false
  end.

(** The request log of a run started in state [st0], at each point of
    the run: the first [select], then what the point allows. *)
Definition merge_log_at (st0 : AppState) (c : AppState * Merge) : Prop :=
  ∃ issued,
    requests c.1 = requests st0 ++ Select (user c.2) :: issued
    ∧ merge_protocol issued = true
    ∧ match point c.2 with
      | AtFetch _ => issued = []
      | AtInsert _ => ∃ rows, issued = [Insert rows]
      | AtRefetch _ => ∃ rows, issued = [Insert rows; Select (user c.2)]
      | Returned => True
      end.

(** ** Session and authentication forms *)

Inductive AuthRequest :=
  | ResetPasswordForEmail (email : string)
  | SignUp (email password : string)
  | SignInWithPassword (email password : string)
  | UpdateUser (password : string)
  | SignOut.

(** The component state around the list: the list state itself, the
    [hadSessionRef] flag, the form fields and the calls made to
    [supabase.auth]. *)
Record AuthState := mkAuth {
  app : AppState;
  hadSession : bool;            (* [hadSessionRef.current] *)
  authMode : string;
  authError : string;
  authNotice : string;
  email : string;
  password : string;
  newPassword : string;
  confirmPassword : string;
  isResettingPassword : bool;
  authRequests : list AuthRequest
}.

Definition setApp (a : AuthState) (v : AppState) : AuthState :=
  mkAuth (v) (hadSession a) (authMode a) (authError a) (authNotice a) (email a) (password a) (newPassword a) (confirmPassword a) (isResettingPassword a) (authRequests a).
Definition setHadSession (a : AuthState) (v : bool) : AuthState :=
  mkAuth (app a) (v) (authMode a) (authError a) (authNotice a) (email a) (password a) (newPassword a) (confirmPassword a) (isResettingPassword a) (authRequests a).
Definition setAuthMode (a : AuthState) (v : string) : AuthState :=
  mkAuth (app a) (hadSession a) (v) (authError a) (authNotice a) (email a) (password a) (newPassword a) (confirmPassword a) (isResettingPassword a) (authRequests a).
Definition setAuthError (a : AuthState) (v : string) : AuthState :=
  mkAuth (app a) (hadSession a) (authMode a) (v) (authNotice a) (email a) (password a) (newPassword a) (confirmPassword a) (isResettingPassword a) (authRequests a).
Definition setAuthNotice (a : AuthState) (v : string) : AuthState :=
  mkAuth (app a) (hadSession a) (authMode a) (authError a) (v) (email a) (password a) (newPassword a) (confirmPassword a) (isResettingPassword a) (authRequests a).
Definition setEmail (a : AuthState) (v : string) : AuthState :=
  mkAuth (app a) (hadSession a) (authMode a) (authError a) (authNotice a) (v) (password a) (newPassword a) (confirmPassword a) (isResettingPassword a) (authRequests a).
Definition setPassword (a : AuthState) (v : string) : AuthState :=
  mkAuth (app a) (hadSession a) (authMode a) (authError a) (authNotice a) (email a) (v) (newPassword a) (confirmPassword a) (isResettingPassword a) (authRequests a).
Definition setNewPassword (a : AuthState) (v : string) : AuthState :=
  mkAuth (app a) (hadSession a) (authMode a) (authError a) (authNotice a) (email a) (password a) (v) (confirmPassword a) (isResettingPassword a) (authRequests a).
Definition setConfirmPassword (a : AuthState) (v : string) : AuthState :=
  mkAuth (app a) (hadSession a) (authMode a) (authError a) (authNotice a) (email a) (password a) (newPassword a) (v) (isResettingPassword a) (authRequests a).
Definition setIsResettingPassword (a : AuthState) (v : bool) : AuthState :=
  mkAuth (app a) (hadSession a) (authMode a) (authError a) (authNotice a) (email a) (password a) (newPassword a) (confirmPassword a) (v) (authRequests a).
Definition issueAuth (a : AuthState) (r : AuthRequest) : AuthState :=
  mkAuth (app a) (hadSession a) (authMode a) (authError a) (authNotice a) (email a) (password a) (newPassword a) (confirmPassword a) (isResettingPassword a) (authRequests a ++ [r]).

(** The part shared by the two places that receive a session: store it,
    remember whether there is one, and on the edge from a session to
    none empty the list, stop loading and clear the guest blob. *)
Definition receiveSession (a : AuthState) (nextSession : option string) : AuthState :=
  let hadSessionBefore := hadSession a in
  let a := setApp a (setSession (app a) nextSession) in
  let a := setHadSession a (bool_decide (is_Some nextSession)) in
  if negb (bool_decide (is_Some nextSession)) && hadSessionBefore
  then setApp a (clearGuestItems (setIsLoading (setItems (app a) []) false))
  else a.

(** The callback of [supabase.auth.getSession()]; [ignore] is the flag
    set by the effect's cleanup. *)
Definition getSession_then (ignore : bool) (a : AuthState) (dataSession : option string) : AuthState :=
  if ignore then a else receiveSession a dataSession.

(** The listener given to [supabase.auth.onAuthStateChange]. *)
Definition onAuthStateChange (a : AuthState) (event : string) (nextSession : option string) : AuthState :=
  let a := receiveSession a nextSession in
  if decide (event = "PASSWORD_RECOVERY") then
    let a := setIsResettingPassword a true in
    let a := setAuthMode a "reset" in
    let a := setAuthNotice a "Enter a new password to finish resetting." in
    let a := setAuthError a "" in
    let a := setNewPassword a "" in
    setConfirmPassword a ""
  else a.

Definition handleSignOut (a : AuthState) : AuthState :=
  let a := setApp a (setItems (clearGuestItems (app a)) []) in
  let a := setHadSession a false in
  let a := setIsResettingPassword a false in
  let a := setAuthMode a "signIn" in
  let a := setAuthNotice a "" in
  let a := setAuthError a "" in
  if hasSupabase (app a) then issueAuth a SignOut else a.

Definition switchAuthMode (a : AuthState) (nextMode : string) : AuthState :=
  setPassword (setAuthNotice (setAuthError (setAuthMode a nextMode) "") "") "".

Definition handlePasswordReset (a : AuthState) : AuthState :=
  setPassword (setAuthMode (setAuthNotice (setAuthError a "") "") "resetRequest") "".

(** [handleAuthSubmit] up to the request it issues.  The callbacks of
    the reset-mail and sign-in requests follow; the callback of the
    sign-up request, which classifies the error message by lower-casing
    it, is not modelled. *)
Definition handleAuthSubmit (a : AuthState) : AuthState :=
  let a := setAuthNotice (setAuthError a "") "" in
  if negb (hasSupabase (app a)) then setAuthError a "Supabase not configured."
  else if decide (authMode a = "resetRequest") then
    if decide (email a = "") then setAuthError a "Enter your email to reset your password."
    else issueAuth a (ResetPasswordForEmail (email a))
  else if decide (authMode a = "signUp") then issueAuth a (SignUp (email a) (password a))
  else issueAuth a (SignInWithPassword (email a) (password a)).

Definition resetRequest_then (error : option string) (a : AuthState) : AuthState :=
  match error with
  | Some message => setAuthError a message
  | None =>
      setPassword
        (setAuthNotice (setAuthError (setAuthMode a "resetSent") "")
                       "Password reset email sent. Check your inbox.") ""
  end.

Definition signIn_then (error : option string) (a : AuthState) : AuthState :=
  match error with
  | Some message => setAuthError a message
  | None => setAuthNotice (setPassword (setEmail a "") "") ""
  end.

Definition handlePasswordUpdate (a : AuthState) : AuthState :=
  let a := setAuthNotice (setAuthError a "") "" in
  if negb (hasSupabase (app a)) then setAuthError a "Supabase not configured."
  else if decide (newPassword a = "") then setAuthError a "Enter a new password."
  else if decide (newPassword a ≠ confirmPassword a) then setAuthError a "Passwords do not match."
  else issueAuth a (UpdateUser (newPassword a)).

Definition passwordUpdate_then (error : option string) (a : AuthState) : AuthState :=
  match error with
  | Some message => setAuthError a message
  | None =>
      let a := setAuthNotice a "Password updated. You can continue using the app." in
      let a := setNewPassword a "" in
      let a := setConfirmPassword a "" in
      let a := setIsResettingPassword a false in
      setAuthMode a "signIn"
  end.

(** ** Sample data *)

Definition guest0 : AppState :=
  mkApp [] [] None [] None None false "" true true true Absent [].

Definition signedIn (user : string) (st : AppState) : AppState :=
  mkApp (items st) (draft st) (editingId st) (editingText st) (activeId st) (Some user)
        (isLoading st) (dataError st) (hasSupabase st) (hasLocalStorage st)
        (storageWritable st) (guestBlob st) (requests st).

Definition item_a : Item := mkItem "a" (str "Buy milk") false 0.
Definition item_b : Item := mkItem "b" (str "Pay rent") false 1.
Definition item_c : Item := mkItem "c" (str "Call mum") false 2.
Definition item_d : Item := mkItem "d" (str "Book flight") true 3.
Definition item_e : Item := mkItem "e" (str "Water plants") true 4.

Definition sample : list Item := [item_a; item_b; item_c; item_d; item_e].

Definition row_1 : Row := mkRow "r1" (str "Walk dog") false (Some 0%Z).
Definition row_2 : Row := mkRow "r2" (str "Send mail") true (Some 1%Z).

(** Signed in as "u" with one guest item in local storage. *)
Definition merging : AppState :=
  mkApp [item_a] [] None [] None (Some "u") false "" true true true (Stored [item_a]) [].

(** Signed in as "u" with nothing in local storage. *)
Definition returning : AppState :=
  mkApp [] [] None [] None (Some "u") false "" true true true Absent [].

Definition started (st : AppState) : AppState * Merge :=
  default (st, mkMerge false Returned "" 0) (loadAndMerge st).

(** The whole component, signed out, with the sample list. *)
Definition anonymous : AuthState :=
  mkAuth (setItems guest0 sample) false "signIn" "" "" "" "" "" "" false [].

(** * Properties *)

(** ** Facts about lists used throughout *)

Section list_facts.
Context {A B : Type}.
Implicit Types (l : list A) (P : A → Prop).

Lemma filter_all P `{∀ x, Decision (P x)} l :
  Forall P l → filter P l = l.
Proof.
  induction 1 as [|x l Hx _ IH]; [done|].
  by rewrite filter_cons_True, IH.
Qed.

Lemma filter_none P `{∀ x, Decision (P x)} l :
  Forall (λ x, ¬ P x) l → filter P l = [].
Proof.
  induction 1 as [|x l Hx _ IH]; [done|].
  by rewrite filter_cons_False.
Qed.

Lemma Forall_filter_keep P (Q : A → Prop) `{∀ x, Decision (Q x)} l :
  Forall P l → Forall P (filter Q l).
Proof.
  rewrite !Forall_forall. intros Hl x Hx.
  apply list_elem_of_filter in Hx as [_ Hx]. by apply Hl.
Qed.

(** A pass that rewrites each element from its index without touching
    a projection [g] leaves the projections, and what a filter on them
    selects, as they were. *)
Lemma fmap_imap_preserved (g : A → B) (f : nat → A → A) l :
  (∀ i x, g (f i x) = g x) → g <$> imap f l = g <$> l.
Proof.
  revert f. induction l as [|x l IH]; intros f Hf; [done|].
  cbn. rewrite Hf. f_equal. apply IH. intros i y. apply Hf.
Qed.

Lemma filter_imap_preserved (g : A → B) (f : nat → A → A)
    P `{∀ x, Decision (P x)} l :
  (∀ i x, g (f i x) = g x) → (∀ i x, P (f i x) ↔ P x) →
  g <$> filter P (imap f l) = g <$> filter P l.
Proof.
  revert f. induction l as [|x l IH]; intros f Hg HP; [done|].
  cbn [imap]. rewrite !filter_cons.
  destruct (decide (P (f 0%nat x))) as [Hy|Hn], (decide (P x)) as [Hx|Hx].
  - cbn. rewrite Hg. f_equal. apply IH; intros; [apply Hg | apply HP].
  - destruct Hx. by apply (HP 0%nat).
  - destruct Hn. by apply HP.
  - apply IH; intros; [apply Hg | apply HP].
Qed.

Lemma Forall_imap_preserved (g : A → B) (Q : B → Prop) (f : nat → A → A) l :
  (∀ i x, g (f i x) = g x) →
  Forall (λ x, Q (g x)) l → Forall (λ x, Q (g x)) (imap f l).
Proof.
  intros Hg Hl. apply Forall_forall. intros y Hy.
  apply elem_of_lookup_imap in Hy as (i & x & -> & Hi).
  rewrite Hg. rewrite Forall_forall in Hl. apply Hl.
  by eapply list_elem_of_lookup_2.
Qed.

Lemma omap_total_length (f : A → option B) (ks : list A) :
  Forall (λ k, is_Some (f k)) ks → length (omap f ks) = length ks.
Proof.
  induction 1 as [|k ks [v Hv] _ IH]; [done|].
  cbn. rewrite Hv. cbn. by rewrite IH.
Qed.

(** The library move commutes with [map] and permutes its argument. *)
Lemma arrayMove_fmap (f : A → B) l from to :
  arrayMove (f <$> l) from to = f <$> arrayMove l from to.
Proof.
  unfold arrayMove, splice_in, splice_out. rewrite list_lookup_fmap.
  destruct (l !! from); cbn; [|done].
  by rewrite !fmap_app, !fmap_cons, !fmap_take, !fmap_drop,
    !fmap_app, !fmap_take, !fmap_drop.
Qed.

Lemma arrayMove_perm l from to : arrayMove l from to ≡ₚ l.
Proof.
  unfold arrayMove. destruct (l !! from) as [x|] eqn:Hfrom; [|done].
  unfold splice_in, splice_out.
  rewrite <- Permutation_middle, take_drop.
  rewrite Permutation_middle. by rewrite take_drop_middle.
Qed.
End list_facts.

(** ** [reindex] *)

Lemma length_reindex l : length (reindex l) = length l.
Proof. apply length_imap. Qed.

Lemma reindex_lookup l i :
  reindex l !! i = (λ item, with_position item (Z.of_nat i)) <$> l !! i.
Proof. apply list_lookup_imap. Qed.

Lemma dense_reindex l : dense (reindex l).
Proof.
  intros i item. rewrite reindex_lookup.
  destruct (l !! i); intros [= <-]; reflexivity.
Qed.

Lemma payload_reindex l : payload <$> reindex l = payload <$> l.
Proof. by apply fmap_imap_preserved. Qed.

Lemma isCompleted_reindex l : isCompleted <$> reindex l = isCompleted <$> l.
Proof. by apply fmap_imap_preserved. Qed.

Lemma position_reindex l : position <$> reindex l = Z.of_nat <$> seq 0 (length l).
Proof.
  apply list_eq. intros i.
  rewrite !list_lookup_fmap, reindex_lookup.
  destruct (l !! i) as [x|] eqn:Hi; cbn.
  - apply lookup_lt_Some in Hi. rewrite lookup_seq_lt by done. done.
  - apply lookup_ge_None in Hi. rewrite lookup_seq_ge by done. done.
Qed.

Lemma payload_actives_reindex l : payload <$> actives (reindex l) = payload <$> actives l.
Proof. unfold actives, reindex. by apply filter_imap_preserved. Qed.

Lemma payload_completeds_reindex l :
  payload <$> completeds (reindex l) = payload <$> completeds l.
Proof. unfold completeds, reindex. by apply filter_imap_preserved. Qed.

(** ** The completion partition *)

Lemma Forall_actives l : Forall (λ item, isCompleted item = false) (actives l).
Proof. apply Forall_forall. intros x Hx. by apply list_elem_of_filter in Hx as [? _]. Qed.

Lemma Forall_completeds l : Forall (λ item, isCompleted item = true) (completeds l).
Proof. apply Forall_forall. intros x Hx. by apply list_elem_of_filter in Hx as [? _]. Qed.

Lemma actives_of_active a : Forall (λ item, isCompleted item = false) a → actives a = a.
Proof. apply filter_all. Qed.

Lemma completeds_of_active a : Forall (λ item, isCompleted item = false) a → completeds a = [].
Proof.
  intros Ha. apply filter_none. eapply Forall_impl; [exact Ha|].
  cbn. intros x ->. done.
Qed.

Lemma completeds_of_completed c : Forall (λ item, isCompleted item = true) c → completeds c = c.
Proof. apply filter_all. Qed.

Lemma actives_of_completed c : Forall (λ item, isCompleted item = true) c → actives c = [].
Proof.
  intros Hc. apply filter_none. eapply Forall_impl; [exact Hc|].
  cbn. intros x ->. done.
Qed.

Lemma actives_split a c :
  Forall (λ item, isCompleted item = false) a →
  Forall (λ item, isCompleted item = true) c →
  actives (a ++ c) = a.
Proof.
  intros Ha Hc. unfold actives. rewrite filter_app.
  fold (actives a) (actives c).
  by rewrite actives_of_active, actives_of_completed, app_nil_r.
Qed.

Lemma completeds_split a c :
  Forall (λ item, isCompleted item = false) a →
  Forall (λ item, isCompleted item = true) c →
  completeds (a ++ c) = c.
Proof.
  intros Ha Hc. unfold completeds. rewrite filter_app.
  fold (completeds a) (completeds c).
  by rewrite completeds_of_active, completeds_of_completed.
Qed.

Create HintDb segments.
#[local] Hint Resolve Forall_actives Forall_completeds : segments.

Lemma partitioned_segments l : partitioned (actives l ++ completeds l).
Proof. exists (actives l), (completeds l). auto with segments. Qed.

Lemma partitioned_fixpoint l : partitioned l ↔ actives l ++ completeds l = l.
Proof.
  split.
  - intros (a & c & -> & Ha & Hc). by rewrite actives_split, completeds_split.
  - intros <-. apply partitioned_segments.
Qed.

Lemma segments_perm l : actives l ++ completeds l ≡ₚ l.
Proof.
  induction l as [|x l IH]; [done|].
  unfold actives, completeds in *. rewrite !filter_cons.
  destruct (isCompleted x) eqn:Hx; repeat case_decide; try congruence.
  - by rewrite <- Permutation_middle, IH.
  - cbn. by rewrite IH.
Qed.

Lemma length_segments l : length (actives l ++ completeds l) = length l.
Proof. by rewrite (segments_perm l). Qed.

Lemma partitioned_reindex l : partitioned l → partitioned (reindex l).
Proof.
  intros (a & c & -> & Ha & Hc). unfold reindex. rewrite imap_app.
  eexists _, _. split; [reflexivity|]. split.
  - by apply (Forall_imap_preserved isCompleted (λ b, b = false)).
  - by apply (Forall_imap_preserved isCompleted (λ b, b = true)).
Qed.

Lemma normalized_reindex l : partitioned l → normalized (reindex l).
Proof. split; [by apply partitioned_reindex | apply dense_reindex]. Qed.

Lemma partitioned_pairwise l i j x y :
  partitioned l → (i < j)%nat → l !! i = Some x → l !! j = Some y →
  isCompleted x = true → isCompleted y = true.
Proof.
  intros (a & c & -> & Ha & Hc) Hij Hi Hj Hx.
  rewrite Forall_forall in Ha. rewrite Forall_forall in Hc.
  destruct (decide (i < length a)%nat) as [Hlt|Hge].
  - rewrite lookup_app_l in Hi by done.
    apply list_elem_of_lookup_2, Ha in Hi. congruence.
  - rewrite lookup_app_r in Hj by lia.
    by apply list_elem_of_lookup_2, Hc in Hj.
Qed.

Lemma normalized_orderByCompletion l : normalized (orderByCompletion l).
Proof. apply normalized_reindex, partitioned_segments. Qed.

Lemma is_normalized_sound l : is_normalized l = true → normalized l.
Proof.
  unfold is_normalized. rewrite andb_true_iff, bool_decide_eq_true.
  intros [Hp Hd]. split.
  - clear Hd. apply partitioned_fixpoint.
    assert (G : ∀ k seen, no_active_after_completed seen k = true →
                (seen = true → Forall (λ item, isCompleted item = true) k)
                ∧ actives k ++ completeds k = k).
    { clear. induction k as [|x k IH]; intros seen Hk; [by split|].
      cbn in Hk. unfold actives, completeds in *. rewrite !filter_cons.
      destruct (isCompleted x) eqn:Hx; repeat case_decide; try congruence.
      - destruct (IH true Hk) as [Hall _]. specialize (Hall eq_refl).
        split; [intros _; by constructor|].
        fold (actives k) (completeds k).
        by rewrite actives_of_completed, completeds_of_completed.
      - apply andb_true_iff in Hk as [Hs Hk]. apply negb_true_iff in Hs. subst seen.
        destruct (IH false Hk) as [_ Heq]. split; [done|].
        cbn. by rewrite Heq. }
    by apply (G l false).
  - intros i x Hi.
    assert (Hpos : (position <$> l) !! i = Some (position x))
      by (by rewrite list_lookup_fmap, Hi).
    rewrite Hd, list_lookup_fmap in Hpos.
    apply lookup_lt_Some in Hi. rewrite lookup_seq_lt in Hpos by done.
    by injection Hpos.
Qed.

(** C7.  For every list, [orderByCompletion] (the specification's
    [partitionByCompletion]) returns a list in which no completed item
    precedes an incomplete one; the incomplete items keep their relative
    order and so do the completed items (their id, content and flag, in
    input order); and the positions of the result are 0..n-1, n being the
    length of the input. *)
Theorem orderByCompletion_stable_partition (l : list Item) :
  (∀ i j x y, (i < j)%nat →
     orderByCompletion l !! i = Some x → orderByCompletion l !! j = Some y →
     isCompleted x = true → isCompleted y = true)
  ∧ payload <$> actives (orderByCompletion l) = payload <$> actives l
  ∧ payload <$> completeds (orderByCompletion l) = payload <$> completeds l
  ∧ payload <$> orderByCompletion l = payload <$> (actives l ++ completeds l)
  ∧ position <$> orderByCompletion l = Z.of_nat <$> seq 0 (length l).
Proof.
  pose proof (Forall_actives l) as Ha. pose proof (Forall_completeds l) as Hc.
  repeat split.
  - intros i j x y. apply partitioned_pairwise, normalized_orderByCompletion.
  - unfold orderByCompletion. by rewrite payload_actives_reindex, actives_split.
  - unfold orderByCompletion. by rewrite payload_completeds_reindex, completeds_split.
  - apply payload_reindex.
  - unfold orderByCompletion. by rewrite position_reindex, length_segments.
Qed.

Example orderByCompletion_sample :
  orderByCompletion [item_d; item_a; item_e; item_b]
  = [with_position item_a 0; with_position item_b 1;
     with_position item_d 2; with_position item_e 3].
Proof. reflexivity. Qed.

(** ** What [syncAll] stores and writes through *)

Lemma items_syncAll_in env nextItems st :
  items (syncAll_in env nextItems st) = reindex nextItems.
Proof.
  unfold syncAll_in, persistGuestItems.
  destruct (session env), (hasSupabase env), (hasLocalStorage st) eqn:?,
    (storageWritable st) eqn:?; cbn; rewrite ?Heqb, ?Heqb0; done.
Qed.

Lemma items_syncAll st nextItems : items (syncAll st nextItems) = reindex nextItems.
Proof. apply items_syncAll_in. Qed.

(** In guest mode the reindexed list is what reaches the guest blob. *)
Lemma guestBlob_syncAll st nextItems :
  guestMode st = true → hasLocalStorage st = true → storageWritable st = true →
  guestBlob (syncAll st nextItems) = Stored (reindex nextItems)
  ∧ requests (syncAll st nextItems) = requests st.
Proof.
  unfold guestMode, syncAll, syncAll_in, persistGuestItems. intros Hg Hs Hw.
  destruct (session st) as [u|], (hasSupabase st); cbn in *;
    try discriminate; rewrite ?Hs, ?Hw; cbn; done.
Qed.

(** Signed in, the reindexed list is what is upserted. *)
Lemma requests_syncAll st nextItems u :
  session st = Some u → hasSupabase st = true →
  requests (syncAll st nextItems)
  = requests st ++ [Upsert (upsertPayload u (reindex nextItems))].
Proof. unfold syncAll, syncAll_in. intros -> ->. done. Qed.

(** ** Trimming *)

Lemma trimStart_whitespace s :
  Forall (λ c, isWhiteSpace c = true) s → trimStart s = [].
Proof. induction 1 as [|c s Hc _ IH]; [done|]. cbn. by rewrite Hc. Qed.

Lemma trim_whitespace s :
  Forall (λ c, isWhiteSpace c = true) s → trim s = [].
Proof. intros Hs. unfold trim, trimEnd. by rewrite (trimStart_whitespace s Hs). Qed.

Example trim_sample : trim (str "  Buy milk ") = str "Buy milk".
Proof. reflexivity. Qed.

(** C8.  When the draft trims to the empty string, and in particular
    when it is empty or made of whitespace only, [handleSubmit] returns
    the state it was given: no item is created, nothing is stored and no
    request is issued.  When the
    edited text trims to empty, [commitEdit] only leaves edit mode: no
    list update runs, every item keeps its content, nothing is stored
    and no request is issued. *)
Theorem empty_content_rejected (st : AppState) (localId eid : string) :
  (trim (draft st) = [] → handleSubmit st localId = st)
  ∧ (Forall (λ c, isWhiteSpace c = true) (draft st) → handleSubmit st localId = st)
  ∧ (trim (editingText st) = [] →
       returned (commitEdit st eid) = None
       ∧ items (after (commitEdit st eid)) = items st
       ∧ guestBlob (after (commitEdit st eid)) = guestBlob st
       ∧ requests (after (commitEdit st eid)) = requests st
       ∧ editingId (after (commitEdit st eid)) = None).
Proof.
  split; [|split]; intros Hempty.
  - unfold handleSubmit. by rewrite Hempty.
  - unfold handleSubmit. by rewrite (trim_whitespace _ Hempty).
  - unfold commitEdit. by rewrite Hempty.
Qed.

Lemma empty_content_rejected_witness :
  let st := setDraft (setItems guest0 sample) (str "   ") in
  handleSubmit st "fresh" = st
  ∧ returned (commitEdit st "a") = None
  ∧ items (after (commitEdit st "a")) = sample.
Proof.
  intros st.
  destruct (empty_content_rejected st "fresh" "a") as (Hadd & _ & Hedit).
  split; [apply Hadd; reflexivity|].
  destruct (Hedit eq_refl) as (Hr & Hi & _).
  split; [exact Hr | exact Hi].
Defined.

(** ** Where [handleSubmit] inserts *)

Lemma insertIndexOf_spec l :
  Forall (λ item, isCompleted item = false) (take (insertIndexOf l) l)
  ∧ match l !! insertIndexOf l with
    | Some firstCompleted => isCompleted firstCompleted = true
    | None => insertIndexOf l = length l
    end.
Proof.
  unfold insertIndexOf, findIndex.
  destruct (list_find _ l) as [[i x]|] eqn:Hfind; cbn.
  - apply list_find_Some in Hfind as (Hi & Hx & Hbefore).
    rewrite Hi. split; [|done].
    apply Forall_forall. intros y Hy.
    apply list_elem_of_lookup in Hy as [j Hj].
    apply lookup_take_Some in Hj as [Hj Hlt].
    specialize (Hbefore j y Hj Hlt). by destruct (isCompleted y).
  - rewrite list_find_None in Hfind.
    rewrite firstn_all, lookup_ge_None_2 by done. split; [|done].
    eapply Forall_impl; [exact Hfind|]. cbn. intros y Hy. by destruct (isCompleted y).
Qed.

Lemma insertIndexOf_partitioned l :
  partitioned l → insertIndexOf l = length (actives l).
Proof.
  intros (a & c & -> & Ha & Hc). rewrite actives_split by done.
  unfold insertIndexOf, findIndex.
  destruct c as [|y c].
  - rewrite app_nil_r.
    assert (Hnone : list_find (λ i, isCompleted i = true) a = None).
    { apply list_find_None. eapply Forall_impl; [exact Ha|]. cbn. by intros x ->. }
    by rewrite Hnone.
  - apply Forall_cons in Hc as [Hy _].
    assert (Hsome : list_find (λ i, isCompleted i = true) (a ++ y :: c)
                    = Some (length a, y)).
    { apply list_find_Some. split; [|split; [done|]].
      - by rewrite lookup_app_r, Nat.sub_diag.
      - intros j z Hj Hlt. rewrite lookup_app_l in Hj by done.
        rewrite Forall_forall in Ha.
        apply list_elem_of_lookup_2, Ha in Hj. congruence. }
    by rewrite Hsome.
Qed.

Lemma truthy_nonempty s : s ≠ [] → negb (truthy s) = false.
Proof. by destruct s. Qed.

(** C10.  [handleSubmit] puts the new item at [insertIndexOf items]: every
    item before that index is active and the item at that index, when
    there is one, is the first completed item (when there is none the
    index is the length of the list); on a partitioned list this is the
    end of the active segment.  The guest branch inserts a new active
    item there at once.  The signed-in branch sends one row with
    [completed = false] and that position, and when the store answers
    with the inserted row its callback inserts the row's item at the
    same index of the list the handler was called on; the item is active
    when the store returns the flag it was sent. *)
Theorem add_inserts_before_first_completed
    (st : AppState) (localId : string) (reply : Reply) (inserted : Row)
    (current : AppState) :
  trim (draft st) ≠ [] →
  let i := insertIndexOf (items st) in
  let placed newItem := reindex (take i (items st) ++ newItem :: drop i (items st)) in
  Forall (λ item, isCompleted item = false) (take i (items st))
  ∧ match items st !! i with
    | Some firstCompleted => isCompleted firstCompleted = true
    | None => i = length (items st)
    end
  ∧ (partitioned (items st) → i = length (actives (items st)))
  ∧ (guestMode st = true →
       items (handleSubmit st localId)
       = placed (mkItem localId (trim (draft st)) false (Z.of_nat i)))
  ∧ (∀ u, session st = Some u → hasSupabase st = true →
       handleSubmit st localId
       = issue st (Insert [mkInsertRow (trim (draft st)) false (Z.of_nat i) u])
       ∧ (error reply = None → data reply ≫= head = Some inserted →
          row_completed inserted = false →
          items (handleSubmit_then st reply current)
          = placed (mkItem (row_id inserted) (row_title inserted) false (Z.of_nat i)))).
Proof.
  intros Hdraft i placed.
  destruct (insertIndexOf_spec (items st)) as [Hbefore Hat].
  split; [exact Hbefore|]. split; [exact Hat|].
  split; [apply insertIndexOf_partitioned|]. split.
  - intros Hguest. unfold handleSubmit, guestMode in *.
    rewrite (truthy_nonempty _ Hdraft).
    destruct (session st), (hasSupabase st); cbn in Hguest; try discriminate;
      cbn; by rewrite items_syncAll.
  - intros u Hu Hsb. split.
    + unfold handleSubmit. by rewrite (truthy_nonempty _ Hdraft), Hu, Hsb.
    + intros Herr Hdata Hecho. unfold handleSubmit_then.
      rewrite Herr, Hdata, Hecho. cbn. by rewrite items_syncAll_in.
Qed.

Lemma add_inserts_before_first_completed_witness :
  let st := setDraft (setItems guest0 sample) (str " Feed cat ") in
  let new := mkItem "f" (str "Feed cat") false 3 in
  let placed := [item_a; item_b; item_c; new;
                 with_position item_d 4; with_position item_e 5] in
  items (handleSubmit st "f") = placed
  ∧ items (handleSubmit_then (signedIn "u" st)
             (mkReply (Some [mkRow "f" (str "Feed cat") false (Some 3%Z)]) None)
             (signedIn "u" st))
    = placed.
Proof.
  intros st new placed. split.
  - pose proof (add_inserts_before_first_completed st "f"
                  (mkReply None None) (mkRow "" [] false None) guest0) as H.
    destruct H as (_ & _ & _ & Hguest & _); [by vm_compute|].
    rewrite Hguest by reflexivity. reflexivity.
  - pose proof (add_inserts_before_first_completed (signedIn "u" st) "f"
                  (mkReply (Some [mkRow "f" (str "Feed cat") false (Some 3%Z)]) None)
                  (mkRow "f" (str "Feed cat") false (Some 3%Z))
                  (signedIn "u" st)) as H.
    destruct H as (_ & _ & _ & _ & Hauth); [by vm_compute|].
    destruct (Hauth "u" eq_refl eq_refl) as [_ Hthen].
    rewrite Hthen by reflexivity. reflexivity.
Defined.

(** ** Cross-segment drag *)


(** C5.  For every list, when the item found for [movedId] and the item
    found for [targetId] differ in [isCompleted], the updater of
    [onDragEnd] returns the list it was given and [syncAll] is not
    called: the handler only clears the drag marker, so the list (and
    with it the moved item's [isCompleted]), the guest blob and the
    request log are unchanged. *)
Theorem cross_segment_drag_unchanged
    (st : AppState) (movedId targetId : string) (moved target : Item) :
  find (λ i, id i = movedId) (items st) = Some moved →
  find (λ i, id i = targetId) (items st) = Some target →
  isCompleted moved ≠ isCompleted target →
  returned (onDragEnd st movedId (Some targetId)) = Some (items st)
  ∧ after (onDragEnd st movedId (Some targetId)) = setActiveId st None.
Proof.
  intros Hm Ht Hne. unfold onDragEnd.
  destruct (decide (movedId = targetId)) as [->|_]; [congruence|].
  assert (Hnone : dragUpdater (items (setActiveId st None)) movedId targetId = None).
  { change (items (setActiveId st None)) with (items st).
    unfold dragUpdater. rewrite Hm, Ht. cbn.
    destruct (indexOf _ movedId); cbn; [|done].
    by rewrite bool_decide_eq_false_2. }
  by rewrite Hnone.
Qed.

Lemma cross_segment_drag_unchanged_witness :
  returned (onDragEnd (setItems guest0 sample) "b" (Some "e")) = Some sample
  ∧ after (onDragEnd (setItems guest0 sample) "b" (Some "e")) = setItems guest0 sample.
Proof.
  apply (cross_segment_drag_unchanged (setItems guest0 sample) "b" "e" item_b item_e);
    [reflexivity | reflexivity | vm_compute; discriminate].
Defined.

(** ** Toggling *)

Lemma toggled_app l1 l2 tid b : toggled (l1 ++ l2) tid b = toggled l1 tid b ++ toggled l2 tid b.
Proof. apply fmap_app. Qed.

Lemma toggled_other l tid b : tid ∉ id <$> l → toggled l tid b = l.
Proof.
  induction l as [|y l IH]; [done|]. cbn.
  rewrite not_elem_of_cons. intros [Hy Hl].
  rewrite decide_True by done. f_equal. by apply IH.
Qed.

Lemma toggled_hit x tid b : id x = tid → toggled [x] tid b = [with_isCompleted x b].
Proof. intros <-. cbn. by rewrite decide_False by (intros H; by apply H). Qed.

(** The segments of a toggled list depend on the ids, contents and flags
    of the input only, not on its positions. *)
Lemma payload_filter_flag_ext (b : bool) (l l' : list Item) :
  payload <$> l = payload <$> l' →
  payload <$> filter (λ item, isCompleted item = b) l
  = payload <$> filter (λ item, isCompleted item = b) l'.
Proof.
  revert l'. induction l as [|x l IH]; intros [|x' l'] Heq; try done.
  rewrite !fmap_cons in Heq. injection Heq as Hid Hcontent Hflag Hl.
  assert (Hx : payload x = payload x') by (unfold payload; congruence).
  rewrite !filter_cons, Hflag.
  case_decide; [|by apply IH].
  rewrite !fmap_cons, Hx. f_equal. by apply IH.
Qed.

Lemma payload_toggled_ext l l' tid b :
  payload <$> l = payload <$> l' →
  payload <$> toggled l tid b = payload <$> toggled l' tid b.
Proof.
  revert l'. induction l as [|x l IH]; intros [|x' l'] Heq; try done.
  rewrite !fmap_cons in Heq. injection Heq as Hid Hcontent Hflag Hl.
  unfold toggled in *. rewrite !fmap_cons, Hid. f_equal; [|by apply IH].
  case_decide; unfold payload; cbn; congruence.
Qed.

Lemma payload_segments_toggled l l' tid b :
  payload <$> l = payload <$> l' →
  payload <$> actives (toggled l tid b) = payload <$> actives (toggled l' tid b)
  ∧ payload <$> completeds (toggled l tid b) = payload <$> completeds (toggled l' tid b).
Proof.
  intros Heq. split; apply payload_filter_flag_ext, payload_toggled_ext, Heq.
Qed.

Lemma toggled_around a1 x a2 c b :
  id x ∉ id <$> (a1 ++ a2 ++ c) →
  toggled (a1 ++ x :: a2 ++ c) (id x) b = a1 ++ with_isCompleted x b :: a2 ++ c.
Proof.
  rewrite !fmap_app, !not_elem_of_app. intros (H1 & H2 & Hc).
  change (x :: a2 ++ c) with ([x] ++ a2 ++ c).
  rewrite !toggled_app, (toggled_hit x) by done.
  by rewrite !toggled_other by done.
Qed.

(** C4 (as amended).  On a list made of an active run [a1 ++ x :: a2]
    followed by a completed run [c], with [x]'s id unique: toggling [x]
    to completed yields the re-partitioned, reindexed list in which [x]
    is the first element of the completed segment (the active segment is
    [a1 ++ a2], the completed segment is [x] followed by [c]); toggling
    it back yields the list in which [x] is the last element of the
    active segment ([a1 ++ a2 ++ [x]], then [c]).  Every other item keeps
    its relative order. *)
Theorem toggle_moves_between_segments
    (st : AppState) (a1 a2 c : list Item) (x : Item) :
  items st = a1 ++ x :: a2 ++ c →
  Forall (λ item, isCompleted item = false) (a1 ++ x :: a2) →
  Forall (λ item, isCompleted item = true) c →
  id x ∉ id <$> (a1 ++ a2 ++ c) →
  let s1 := after (handleToggle st (id x) true) in
  let s2 := after (handleToggle s1 (id x) false) in
  returned (handleToggle st (id x) true) = Some (a1 ++ a2 ++ with_isCompleted x true :: c)
  ∧ items s1 = reindex (a1 ++ a2 ++ with_isCompleted x true :: c)
  ∧ payload <$> actives (items s1) = payload <$> (a1 ++ a2)
  ∧ payload <$> completeds (items s1)
    = payload (with_isCompleted x true) :: (payload <$> c)
  ∧ normalized (items s1)
  ∧ payload <$> actives (items s2) = payload <$> (a1 ++ a2 ++ [x])
  ∧ payload <$> completeds (items s2) = payload <$> c
  ∧ normalized (items s2).
Proof.
  intros Hitems Hact Hc Hfresh s1 s2.
  apply Forall_app in Hact as [Ha1 Hxa2].
  apply Forall_cons in Hxa2 as [Hx Ha2].
  assert (Ha12 : Forall (λ item, isCompleted item = false) (a1 ++ a2))
    by (by apply Forall_app).
  assert (Hxc : Forall (λ item, isCompleted item = true) (with_isCompleted x true :: c))
    by (by constructor).
  set (next1 := a1 ++ a2 ++ with_isCompleted x true :: c).
  assert (Hnext1 : actives (toggled (items st) (id x) true)
                   ++ completeds (toggled (items st) (id x) true) = next1).
  { rewrite Hitems, toggled_around by done.
    replace (a1 ++ with_isCompleted x true :: a2 ++ c)
      with ((a1 ++ [with_isCompleted x true] ++ a2) ++ c) by (by rewrite <- !app_assoc).
    unfold actives, completeds. rewrite !filter_app.
    fold (actives a1) (actives a2) (actives c) (completeds a1) (completeds a2)
      (completeds c) (actives [with_isCompleted x true])
      (completeds [with_isCompleted x true]).
    rewrite (actives_of_active a1), (actives_of_active a2) by done.
    rewrite (completeds_of_active a1), (completeds_of_active a2) by done.
    rewrite (actives_of_completed c), (completeds_of_completed c) by done.
    rewrite (actives_of_completed [_]), (completeds_of_completed [_])
      by (by repeat constructor).
    unfold next1. cbn. by rewrite !app_nil_r, <- app_assoc. }
  assert (Hs1 : items s1 = reindex next1).
  { unfold s1, handleToggle. cbn. by rewrite items_syncAll, Hnext1. }
  assert (Hsplit1 : next1 = (a1 ++ a2) ++ with_isCompleted x true :: c)
    by (unfold next1; by rewrite <- app_assoc).
  split; [unfold handleToggle; cbn; by rewrite Hnext1|].
  split; [exact Hs1|].
  split; [by rewrite Hs1, payload_actives_reindex, Hsplit1, actives_split|].
  split; [by rewrite Hs1, payload_completeds_reindex, Hsplit1, completeds_split|].
  split; [rewrite Hs1; apply normalized_reindex;
          by exists (a1 ++ a2), (with_isCompleted x true :: c)|].
  assert (Hs2 : items s2 = reindex (actives (toggled (items s1) (id x) false)
                                    ++ completeds (toggled (items s1) (id x) false))).
  { unfold s2, handleToggle. cbn. by rewrite items_syncAll. }
  destruct (payload_segments_toggled (items s1) next1 (id x) false) as [Hpa Hpc];
    [by rewrite Hs1, payload_reindex|].
  assert (Hback : toggled next1 (id x) false
                  = (a1 ++ a2 ++ [with_isCompleted (with_isCompleted x true) false]) ++ c).
  { pose proof Hfresh as Hparts.
    rewrite !fmap_app, !not_elem_of_app in Hparts. destruct Hparts as (H1 & H2 & H3).
    unfold next1. change (with_isCompleted x true :: c) with ([with_isCompleted x true] ++ c).
    rewrite !toggled_app, (toggled_hit (with_isCompleted x true)) by done.
    rewrite !toggled_other by done. by rewrite <- !app_assoc. }
  assert (Hx' : payload (with_isCompleted (with_isCompleted x true) false) = payload x)
    by (unfold payload; cbn; by rewrite Hx).
  assert (Hact2 : Forall (λ item, isCompleted item = false)
                    (a1 ++ a2 ++ [with_isCompleted (with_isCompleted x true) false])).
  { rewrite app_assoc. apply Forall_app. split; [done|]. by repeat constructor. }
  split.
  { rewrite Hs2, payload_actives_reindex.
    rewrite actives_split by auto with segments.
    rewrite Hpa, Hback, actives_split by done.
    rewrite !fmap_app. cbn. by rewrite Hx'. }
  split.
  { rewrite Hs2, payload_completeds_reindex.
    rewrite completeds_split by auto with segments.
    by rewrite Hpc, Hback, completeds_split. }
  rewrite Hs2. apply normalized_reindex, partitioned_segments.
Qed.

Lemma toggle_moves_between_segments_witness :
  let st := setItems guest0 sample in
  let s1 := after (handleToggle st "b" true) in
  items s1 = reindex [item_a; item_c; with_isCompleted item_b true; item_d; item_e]
  ∧ payload <$> actives (items (after (handleToggle s1 "b" false)))
    = payload <$> [item_a; item_c; item_b].
Proof.
  intros st s1.
  assert (Hfresh : id item_b ∉ id <$> ([item_a] ++ [item_c] ++ [item_d; item_e])).
  { cbn. rewrite !not_elem_of_cons. repeat split; try discriminate. apply not_elem_of_nil. }
  destruct (toggle_moves_between_segments st [item_a] [item_c] [item_d; item_e] item_b
              eq_refl ltac:(by repeat constructor) ltac:(by repeat constructor) Hfresh)
    as (_ & Hs1 & _ & _ & _ & Hs2 & _).
  split; [exact Hs1 | exact Hs2].
Defined.

(** The toggled item does not go to the end of the completed segment: in
    the normalized sample list, toggling the active item "b" to completed
    leaves "e" as the last completed item and puts "b" first. *)
Lemma toggle_to_end_counterexample :
  let st := setItems guest0 sample in
  let s1 := after (handleToggle st "b" true) in
  normalized (items st)
  ∧ item_b ∈ actives (items st)
  ∧ id <$> head (completeds (items s1)) = Some "b"
  ∧ id <$> last (completeds (items s1)) = Some "e"
  ∧ id <$> last (completeds (items s1)) ≠ Some (id item_b).
Proof.
  cbv zeta. split; [by apply is_normalized_sound|].
  split; [vm_compute; by repeat constructor|].
  split; [reflexivity|]. split; [reflexivity|].
  vm_compute. discriminate.
Qed.

(** ** Same-segment drag *)

Lemma byId_foldl_other (l : list Item) (m : gmap string Item) k :
  k ∉ id <$> l → foldl (λ m i, <[id i := i]> m) m l !! k = m !! k.
Proof.
  revert m. induction l as [|y l IH]; intros m Hk; [done|].
  cbn in *. apply not_elem_of_cons in Hk as [Hy Hl].
  rewrite IH by done. by rewrite lookup_insert_ne.
Qed.

Lemma byId_foldl_lookup (l : list Item) (m : gmap string Item) x :
  NoDup (id <$> l) → x ∈ l → foldl (λ m i, <[id i := i]> m) m l !! id x = Some x.
Proof.
  revert m. induction l as [|y l IH]; intros m Hnd Hx; [by apply elem_of_nil in Hx|].
  cbn in *. apply NoDup_cons in Hnd as [Hy Hnd].
  apply elem_of_cons in Hx as [->|Hx].
  - rewrite byId_foldl_other by done. apply lookup_insert_eq.
  - by apply IH.
Qed.

Lemma byId_lookup l x : NoDup (id <$> l) → x ∈ l → byId l !! id x = Some x.
Proof. apply byId_foldl_lookup. Qed.

(** Every id of the list is a key of the map, whatever the list: the
    lookups of [dragUpdater] never miss. *)
Lemma byId_foldl_is_Some (l : list Item) (m : gmap string Item) k :
  k ∈ id <$> l ∨ is_Some (m !! k) →
  is_Some (foldl (λ m i, <[id i := i]> m) m l !! k).
Proof.
  revert m. induction l as [|y l IH]; intros m Hk.
  - destruct Hk as [Hk|Hk]; [by apply elem_of_nil in Hk | done].
  - cbn in *. apply IH. destruct (decide (k ∈ id <$> l)) as [|Hn]; [by left|right].
    destruct (decide (id y = k)) as [<-|Hne].
    + rewrite lookup_insert_eq. by eexists.
    + rewrite lookup_insert_ne by done.
      destruct Hk as [Hk|Hk]; [|done].
      apply elem_of_cons in Hk as [->|Hk]; done.
Qed.

Lemma omap_byId l k :
  NoDup (id <$> l) → k ⊆ l → omap (λ i, byId l !! i) (id <$> k) = k.
Proof.
  intros Hnd. induction k as [|x k IH]; intros Hsub; [done|].
  cbn. rewrite byId_lookup by (done || set_solver). cbn.
  f_equal. apply IH. set_solver.
Qed.

Lemma find_fmap_id (seg : list Item) k :
  indexOf (id <$> seg) k = findIndex (λ i, id i = k) seg.
Proof.
  unfold indexOf, findIndex. rewrite list_find_fmap.
  destruct (list_find _ seg) as [[i x]|]; done.
Qed.

Lemma NoDup_id_middle (a b : list Item) x :
  NoDup (id <$> (a ++ x :: b)) →
  Forall (λ i, id i ≠ id x) a ∧ Forall (λ i, id i ≠ id x) b.
Proof.
  rewrite fmap_app, fmap_cons. intros Hnd.
  apply NoDup_app in Hnd as (_ & Hdisj & Hxb).
  apply NoDup_cons in Hxb as [Hxb _].
  split; apply Forall_forall; intros y Hy Heq.
  - apply (Hdisj (id y)); [by apply list_elem_of_fmap_2 | rewrite Heq; by left].
  - apply Hxb. rewrite <- Heq. by apply list_elem_of_fmap_2.
Qed.

Lemma find_unique (l : list Item) x :
  NoDup (id <$> l) → x ∈ l →
  ∃ i, list_find (λ y, id y = id x) l = Some (i, x).
Proof.
  intros Hnd Hx. apply list_elem_of_lookup in Hx as [i Hi]. exists i.
  apply list_find_Some. split; [done|]. split; [done|].
  intros j y Hj Hlt Heq.
  apply (NoDup_lookup (id <$> l) i j (id x)) in Hnd; [lia| |].
  - by rewrite list_lookup_fmap, Hi.
  - by rewrite list_lookup_fmap, Hj, <- Heq.
Qed.

Lemma filter_out_moved (seg : list Item) from x :
  NoDup (id <$> seg) → seg !! from = Some x →
  filter (λ i, id i ≠ id x) seg = splice_out seg from.
Proof.
  intros Hnd Hfrom. unfold splice_out.
  rewrite <- (take_drop_middle seg from x Hfrom) in Hnd.
  destruct (NoDup_id_middle _ _ _ Hnd) as [Ha Hb].
  rewrite <- (take_drop_middle seg from x Hfrom) at 1.
  rewrite filter_app, filter_cons_False by (intros H; by apply H).
  by rewrite !filter_all.
Qed.

(** On a segment with unique ids, the library move on indices is the
    delete-then-insert move of the specification. *)
Lemma arrayMove_moveWithin (seg : list Item) movedId targetId from to x y :
  NoDup (id <$> seg) →
  list_find (λ i, id i = movedId) seg = Some (from, x) →
  list_find (λ i, id i = targetId) seg = Some (to, y) →
  arrayMove seg from to = moveWithin_spec seg movedId targetId.
Proof.
  intros Hnd Hm Ht. unfold moveWithin_spec, find, findIndex. rewrite Hm, Ht. cbn.
  apply list_find_Some in Hm as (Hfrom & <- & _).
  unfold arrayMove. rewrite Hfrom. unfold splice_in.
  by rewrite (filter_out_moved seg from x).
Qed.

(** The index lookups of the updater of [onDragEnd] on a segment [seg] of
    [prev], and where the moved segment's items come from. *)
Lemma reordered_lookup prev (seg : list Item) movedId targetId from to x y :
  seg ⊆ prev →
  list_find (λ i, id i = movedId) seg = Some (from, x) →
  list_find (λ i, id i = targetId) seg = Some (to, y) →
  indexOf (id <$> seg) movedId = Some from
  ∧ indexOf (id <$> seg) targetId = Some to
  ∧ arrayMove seg from to ⊆ prev.
Proof.
  intros Hsub Hm Ht. rewrite !find_fmap_id. unfold findIndex.
  rewrite Hm, Ht. split; [done|]. split; [done|].
  intros z Hz. apply Hsub. by rewrite (arrayMove_perm seg from to) in Hz.
Qed.

Lemma NoDup_id_filter (P : Item → Prop) `{∀ x, Decision (P x)} (l : list Item) :
  NoDup (id <$> l) → NoDup (id <$> filter P l).
Proof.
  intros Hnd. apply (sublist_NoDup _ _ Hnd).
  apply fmap_sublist, sublist_filter.
Qed.

Lemma find_in (l : list Item) x :
  NoDup (id <$> l) → x ∈ l → find (λ i, id i = id x) l = Some x.
Proof.
  intros Hnd Hx. destruct (find_unique l x Hnd Hx) as [i Hi].
  unfold find. by rewrite Hi.
Qed.

(** The updater of [onDragEnd] on two items of one segment. *)
Lemma dragUpdater_same_segment (prev : list Item) (x y : Item) :
  NoDup (id <$> prev) → x ∈ prev → y ∈ prev →
  isCompleted x = isCompleted y →
  dragUpdater prev (id x) (id y) = Some (reassembled_spec prev (id x) (id y)).
Proof.
  intros Hnd Hx Hy Hflag.
  unfold dragUpdater, reassembled_spec.
  rewrite (find_in prev x), (find_in prev y) by done. cbn.
  assert (Hsuba : actives prev ⊆ prev) by apply list_subseteq_filter.
  assert (Hsubc : completeds prev ⊆ prev) by apply list_subseteq_filter.
  assert (Hnda : NoDup (id <$> actives prev)) by by apply NoDup_id_filter.
  assert (Hndc : NoDup (id <$> completeds prev)) by by apply NoDup_id_filter.
  rewrite <- Hflag. rewrite bool_decide_eq_true_2 by done. cbn.
  destruct (isCompleted x) eqn:Hcx.
  - assert (Hxs : x ∈ completeds prev) by (by apply list_elem_of_filter).
    assert (Hys : y ∈ completeds prev) by (apply list_elem_of_filter; split; congruence).
    destruct (find_unique _ x Hndc Hxs) as [from Hfrom].
    destruct (find_unique _ y Hndc Hys) as [to Hto].
    destruct (reordered_lookup prev _ _ _ _ _ _ _ Hsubc Hfrom Hto) as (-> & -> & Hsub).
    cbn. rewrite arrayMove_fmap, <- fmap_app.
    rewrite omap_byId by (done || (intros z [Hz|Hz]%elem_of_app; auto)).
    by rewrite (arrayMove_moveWithin _ (id x) (id y) from to x y).
  - assert (Hxs : x ∈ actives prev) by (by apply list_elem_of_filter).
    assert (Hys : y ∈ actives prev) by (apply list_elem_of_filter; split; congruence).
    destruct (find_unique _ x Hnda Hxs) as [from Hfrom].
    destruct (find_unique _ y Hnda Hys) as [to Hto].
    destruct (reordered_lookup prev _ _ _ _ _ _ _ Hsuba Hfrom Hto) as (-> & -> & Hsub).
    cbn. rewrite arrayMove_fmap, <- fmap_app.
    rewrite omap_byId by (done || (intros z [Hz|Hz]%elem_of_app; auto)).
    by rewrite (arrayMove_moveWithin _ (id x) (id y) from to x y).
Qed.



(** The lookups [byId.get(id)] of the updater always hit: the list it
    builds has as many items as the list it was given. *)
Lemma byId_is_Some (prev : list Item) k : k ∈ id <$> prev → is_Some (byId prev !! k).
Proof. intros Hk. apply byId_foldl_is_Some. by left. Qed.

Lemma dragUpdater_length prev active over nextItems :
  dragUpdater prev active over = Some nextItems → length nextItems = length prev.
Proof.
  unfold dragUpdater.
  destruct (find (λ i, id i = active) prev) as [activeItem|]; cbn; [|done].
  destruct (find (λ i, id i = over) prev) as [overItem|]; cbn; [|done].
  destruct (indexOf _ active) as [fromIndex|]; cbn; [|done].
  destruct (negb _); [done|].
  destruct (indexOf _ over) as [toIndex|]; cbn; [|done].
  intros [= <-].
  assert (Hseg : ∀ (P : Item → Prop) `{∀ x, Decision (P x)} k,
            k ∈ id <$> filter P prev → is_Some (byId prev !! k)).
  { intros P ? k Hk. apply byId_is_Some.
    apply list_elem_of_fmap in Hk as (z & -> & Hz).
    apply list_elem_of_fmap_2. by apply list_elem_of_filter in Hz as [_ Hz]. }
  rewrite omap_total_length.
  - rewrite <- (length_segments prev), !length_app.
    destruct (isCompleted activeItem);
      by rewrite (arrayMove_perm _ fromIndex toIndex), !length_fmap.
  - apply Forall_forall. intros k Hk.
    destruct (isCompleted activeItem); apply elem_of_app in Hk as [Hk|Hk];
      try rewrite (arrayMove_perm _ fromIndex toIndex) in Hk;
      by eapply Hseg.
Qed.

(** ** The normal form is kept by every mutation *)

Lemma reindex_dense l : dense l → reindex l = l.
Proof.
  intros Hd. apply list_eq. intros i. rewrite reindex_lookup.
  destruct (l !! i) as [x|] eqn:Hi; [|done]. cbn.
  specialize (Hd i x Hi). destruct x; cbn in *. by subst.
Qed.











(** ** The sign-in merge *)

Lemma insertByPosition_perm x l : insertByPosition x l ≡ₚ x :: l.
Proof.
  induction l as [|y l IH]; [done|]. cbn.
  destruct (position x <=? position y)%Z; [done|].
  by rewrite IH, Permutation_swap.
Qed.

Lemma sortByPosition_perm l : sortByPosition l ≡ₚ l.
Proof.
  induction l as [|x l IH]; [done|]. cbn.
  by rewrite insertByPosition_perm, IH.
Qed.

Lemma length_normalizeRows rows : length (normalizeRows rows) = length rows.
Proof. unfold normalizeRows. by rewrite sortByPosition_perm, length_imap. Qed.

Lemma length_orderByCompletion l : length (orderByCompletion l) = length l.
Proof. unfold orderByCompletion. by rewrite length_reindex, length_segments. Qed.

Lemma insertPayload_lookup u existing guestItems i :
  insertPayload u existing guestItems !! i
  = (λ item, mkInsertRow (content item) (isCompleted item)
                         (Z.of_nat (length existing + i)) u) <$> guestItems !! i.
Proof. unfold insertPayload. by rewrite list_lookup_imap. Qed.

Lemma loadGuestItems_start st :
  loadGuestItems (setDataError (setIsLoading st true) "") = loadGuestItems st.
Proof. done. Qed.

(** C2.  Signed in, with a non-empty guest list and a first fetch that
    succeeds, the run started by [loadAndMerge] issues, after its
    [select], one bulk insert whose rows are, index by index, the guest
    items in guest-list order: row [i] carries the content and the
    [isCompleted] flag of guest item [i], the position
    [length existing + i] and the user id, where [existing] is the
    fetched list normalized by [orderByCompletion] (in normal form and
    as long as the fetched list).  The guest items are not
    re-partitioned, and the run then waits for the insert. *)
Theorem merge_insert_rows (st : AppState) (u : string) (reply : Reply) :
  session st = Some u → hasSupabase st = true →
  loadGuestItems st ≠ [] →
  error reply = None →
  let guest := loadGuestItems st in
  let existing := orderByCompletion (normalizeRows (default [] (data reply))) in
  ∃ c0 rows,
    loadAndMerge st = Some c0
    ∧ requests (step c0 (SelectReplied reply)).1 = requests st ++ [Select u; Insert rows]
    ∧ point (step c0 (SelectReplied reply)).2 = AtInsert existing
    ∧ length rows = length guest
    ∧ (∀ i item, guest !! i = Some item →
         rows !! i = Some (mkInsertRow (content item) (isCompleted item)
                                       (Z.of_nat (length existing + i)) u))
    ∧ ins_completed <$> rows = isCompleted <$> guest
    ∧ ins_title <$> rows = content <$> guest
    ∧ normalized existing
    ∧ length existing = length (default [] (data reply)).
Proof.
  intros Hu Hsb Hguest Herr guest existing.
  unfold loadAndMerge. rewrite Hu, Hsb. rewrite loadGuestItems_start.
  fold guest. eexists _, (insertPayload u existing (reindex guest)).
  split; [reflexivity|].
  assert (Hne : reindex guest ≠ []).
  { intros Hnil. apply Hguest. apply (f_equal length) in Hnil.
    rewrite length_reindex in Hnil. by apply nil_length_inv. }
  cbn [step point cancelled afterFetch fst snd]. rewrite Herr.
  fold existing. destruct (reindex guest) as [|g gs] eqn:Hre; [done|].
  rewrite <- Hre. cbn [fst snd point moveTo user requests issue].
  split; [by rewrite <- app_assoc|]. split; [done|].
  split; [unfold insertPayload; by rewrite length_imap, length_reindex|].
  split.
  { intros i item Hi. rewrite insertPayload_lookup, reindex_lookup, Hi. done. }
  split; [|split; [|split]].
  - unfold insertPayload. rewrite fmap_imap.
    rewrite <- (isCompleted_reindex guest).
    apply list_eq. intros i. by rewrite list_lookup_imap, list_lookup_fmap.
  - unfold insertPayload. rewrite fmap_imap.
    transitivity (content <$> reindex guest).
    + apply list_eq. intros i. by rewrite list_lookup_imap, list_lookup_fmap.
    + by apply fmap_imap_preserved.
  - apply normalized_orderByCompletion.
  - unfold existing. by rewrite length_orderByCompletion, length_normalizeRows.
Qed.

Lemma merge_insert_rows_witness :
  ∃ c0 rows,
    loadAndMerge merging = Some c0
    ∧ requests (step c0 (SelectReplied (mkReply (Some [row_1; row_2]) None))).1
      = [Select "u"; Insert rows]
    ∧ length rows = 1%nat
    ∧ rows !! 0%nat = Some (mkInsertRow (str "Buy milk") false 2 "u").
Proof.
  destruct (merge_insert_rows merging "u" (mkReply (Some [row_1; row_2]) None)
              eq_refl eq_refl ltac:(vm_compute; discriminate) eq_refl)
    as (c0 & rows & Hstart & Hreq & _ & Hlen & Hrows & _).
  exists c0, rows. split; [exact Hstart|]. split; [exact Hreq|].
  split; [exact Hlen|]. exact (Hrows 0%nat item_a eq_refl).
Defined.

(** ** The insert of the merge and the guest blob *)

(** C3 (as amended).  When the bulk insert of the merge resolves and the
    invocation has not been cancelled: on failure the error is shown,
    the list becomes [existing], loading ends and the guest blob is left
    as it was; on success the guest blob is removed and the list is
    fetched again; so a stored guest blob is cleared exactly when the
    insert succeeded.  When the invocation has been cancelled, the
    resolved insert changes nothing: the list is not replaced and the
    guest blob is not cleared, whatever the insert returned. *)
Theorem merge_insert_outcome
    (st : AppState) (m : Merge) (existing : list Item) (insertError : option string) :
  point m = AtInsert existing →
  let c := step (st, m) (InsertReplied insertError) in
  (cancelled m = false →
     (∀ message, insertError = Some message →
        items c.1 = existing ∧ guestBlob c.1 = guestBlob st
        ∧ dataError c.1 = message ∧ isLoading c.1 = false
        ∧ requests c.1 = requests st ∧ point c.2 = Returned)
     ∧ (insertError = None →
          guestBlob c.1 = (if hasLocalStorage st then Absent else guestBlob st)
          ∧ items c.1 = items st
          ∧ requests c.1 = requests st ++ [Select (user m)]
          ∧ point c.2 = AtRefetch existing)
     ∧ (∀ g, hasLocalStorage st = true → guestBlob st = Stored g →
          (guestBlob c.1 = Absent ↔ insertError = None)))
  ∧ (cancelled m = true → c.1 = st ∧ point c.2 = Returned).
Proof.
  intros Hpoint c. unfold c. cbn [step]. rewrite Hpoint.
  unfold afterInsert. split.
  - intros ->. split; [|split].
    + by intros message ->.
    + intros ->. unfold clearGuestItems. by destruct (hasLocalStorage st) eqn:Hls.
    + intros g Hls Hblob. destruct insertError as [message|]; cbn.
      * rewrite Hblob. by split.
      * unfold clearGuestItems. rewrite Hls. by split.
  - by intros ->.
Qed.

Lemma merge_insert_outcome_witness :
  let c0 := step (started merging) (SelectReplied (mkReply (Some [row_1; row_2]) None)) in
  let existing := orderByCompletion (normalizeRows [row_1; row_2]) in
  (items (step c0 (InsertReplied (Some "insert failed"))).1 = existing
   ∧ guestBlob (step c0 (InsertReplied (Some "insert failed"))).1 = Stored [item_a])
  ∧ guestBlob (step c0 (InsertReplied None)).1 = Absent
  ∧ (step (step c0 Cancel) (InsertReplied None)).1 = c0.1.
Proof.
  intros c0 existing.
  destruct (merge_insert_outcome c0.1 c0.2 existing (Some "insert failed") eq_refl)
    as [Hlive _].
  destruct (Hlive eq_refl) as (Hfail & _ & _).
  destruct (Hfail "insert failed" eq_refl) as (Hitems & Hblob & _).
  destruct (merge_insert_outcome c0.1 c0.2 existing None eq_refl) as [Hlive' _].
  destruct (Hlive' eq_refl) as (_ & Hok & _).
  destruct (Hok eq_refl) as (Hcleared & _).
  destruct (merge_insert_outcome c0.1 (cleanup c0.2) existing None eq_refl)
    as [_ Hcancelled].
  destruct (Hcancelled eq_refl) as [Hsame _].
  split; [split; [exact Hitems | exact Hblob]|].
  split; [exact Hcleared | exact Hsame].
Defined.

(** A cancelled invocation does not clear the guest blob although its
    insert succeeded, and does not adopt [existing] although its insert
    failed. *)
Lemma merge_insert_cancelled_counterexample :
  let c0 := step (started merging) (SelectReplied (mkReply (Some [row_1; row_2]) None)) in
  let existing := orderByCompletion (normalizeRows [row_1; row_2]) in
  point c0.2 = AtInsert existing
  ∧ guestBlob (run c0 [Cancel; InsertReplied None]).1 = Stored [item_a]
  ∧ guestBlob (run c0 [Cancel; InsertReplied None]).1 ≠ Absent
  ∧ items (run c0 [Cancel; InsertReplied (Some "insert failed")]).1 = [item_a]
  ∧ items (run c0 [Cancel; InsertReplied (Some "insert failed")]).1 ≠ existing.
Proof.
  cbv zeta. split; [reflexivity|]. split; [reflexivity|].
  split; [vm_compute; discriminate|]. split; [reflexivity|].
  vm_compute. discriminate.
Qed.

(** ** Cancellation *)

(** Once cancelled, the continuation of an awaited request returns at
    once: the resolved [select] or [insert] changes nothing. *)
Lemma cancelled_awaits_are_silent (st : AppState) (m : Merge) :
  cancelled m = true →
  (∀ reply, (step (st, m) (SelectReplied reply)).1 = st)
  ∧ (∀ insertError, (step (st, m) (InsertReplied insertError)).1 = st).
Proof.
  intros Hc. split; intros r; cbn [step];
    destruct (point m); try done;
    unfold afterFetch, afterRefetch, afterInsert; by rewrite Hc.
Qed.

(** C9.  The write-back upsert of the merge is not awaited and its
    callback does not look at the cancellation flag: in the run below the
    first fetch resolves, the list is adopted and written back, the
    invocation is then cancelled, and the upsert fails afterwards; its
    message still reaches the error slot. *)
Theorem stale_writeback_error_after_cancel :
  let c1 := run (started returning) [SelectReplied (mkReply (Some [row_1]) None); Cancel] in
  cancelled c1.2 = true
  ∧ dataError c1.1 = ""
  ∧ dataError (step c1 (WritebackReplied (Some "upsert failed"))).1 = "upsert failed".
Proof. by vm_compute. Qed.

(** Scenario A of the specification: two guest items, empty remote
    list; the merge inserts both after position 0, clears the guest
    blob and adopts the re-fetched list. *)
Example merge_scenario_A :
  let st := mkApp [] [] None [] None (Some "u") false "" true true true
                  (Stored [item_a; with_isCompleted item_b true]) [] in
  let final := run (started st)
    [SelectReplied (mkReply (Some []) None);
     InsertReplied None;
     SelectReplied (mkReply (Some [mkRow "1" (str "Buy milk") false (Some 0%Z);
                                   mkRow "2" (str "Pay rent") true (Some 1%Z)]) None)] in
  items final.1 = [mkItem "1" (str "Buy milk") false 0; mkItem "2" (str "Pay rent") true 1]
  ∧ guestBlob final.1 = Absent
  ∧ isLoading final.1 = false
  ∧ requests final.1
    = [Select "u";
       Insert [mkInsertRow (str "Buy milk") false 0 "u";
               mkInsertRow (str "Pay rent") true 1 "u"];
       Select "u";
       Upsert [mkUpsertRow "1" (str "Buy milk") false 0 "u";
               mkUpsertRow "2" (str "Pay rent") true 1 "u"]].
Proof. by vm_compute. Qed.

(** * Further properties of the list logic *)

(** ** [reindex] and the normal form *)

(** X1.  [reindex] keeps the length and every item's id, content and
    flag, sets the positions to 0..n-1, is idempotent, and leaves a list
    unchanged exactly when its positions were already the indices. *)
Theorem reindex_characterised (l : list Item) :
  length (reindex l) = length l
  ∧ payload <$> reindex l = payload <$> l
  ∧ position <$> reindex l = Z.of_nat <$> seq 0 (length l)
  ∧ reindex (reindex l) = reindex l
  ∧ (reindex l = l ↔ dense l).
Proof.
  split; [apply length_reindex|]. split; [apply payload_reindex|].
  split; [apply position_reindex|]. split.
  - apply reindex_dense, dense_reindex.
  - split; [intros <-; apply dense_reindex | apply reindex_dense].
Qed.

Lemma orderByCompletion_fixed l : normalized l → orderByCompletion l = l.
Proof.
  intros [Hp Hd]. unfold orderByCompletion.
  apply partitioned_fixpoint in Hp. rewrite Hp. by apply reindex_dense.
Qed.

(** X2.  The lists in normal form are exactly the fixed points of
    [orderByCompletion], and [orderByCompletion] is idempotent. *)
Theorem orderByCompletion_fixed_points (l : list Item) :
  (orderByCompletion l = l ↔ normalized l)
  ∧ orderByCompletion (orderByCompletion l) = orderByCompletion l.
Proof.
  split.
  - split; [intros <-; apply normalized_orderByCompletion
           | apply orderByCompletion_fixed].
  - apply orderByCompletion_fixed, normalized_orderByCompletion.
Qed.

(** ** Trimmed content *)

Lemma trimStart_suffix s :
  ∃ p, s = p ++ trimStart s ∧ Forall (λ c, isWhiteSpace c = true) p.
Proof.
  induction s as [|c s (p & Hs & Hp)]; [by exists []|]. cbn.
  destruct (isWhiteSpace c) eqn:Hc.
  - exists (c :: p). split; [cbn; by f_equal | by constructor].
  - by exists [].
Qed.

Lemma trimStart_head s :
  match trimStart s with [] => True | c :: _ => isWhiteSpace c = false end.
Proof.
  induction s as [|c s IH]; [done|]. cbn.
  by destruct (isWhiteSpace c) eqn:Hc.
Qed.

Lemma trimStart_fixed s :
  match s with [] => True | c :: _ => isWhiteSpace c = false end → trimStart s = s.
Proof. destruct s as [|c s]; [done|]. cbn. by intros ->. Qed.

Lemma trimStart_idemp s : trimStart (trimStart s) = trimStart s.
Proof. apply trimStart_fixed, trimStart_head. Qed.

Lemma trimEnd_idemp s : trimEnd (trimEnd s) = trimEnd s.
Proof. unfold trimEnd. by rewrite reverse_involutive, trimStart_idemp. Qed.

Lemma trimEnd_prefix s :
  ∃ q, s = trimEnd s ++ q ∧ Forall (λ c, isWhiteSpace c = true) q.
Proof.
  destruct (trimStart_suffix (reverse s)) as (p & Hs & Hp).
  exists (reverse p). split.
  - unfold trimEnd. rewrite <- reverse_app, <- Hs. by rewrite reverse_involutive.
  - by apply Forall_reverse.
Qed.

(** Trimming the end keeps a first character that is not whitespace. *)
Lemma trimEnd_head s :
  match s with [] => True | c :: _ => isWhiteSpace c = false end →
  match trimEnd s with [] => True | c :: _ => isWhiteSpace c = false end.
Proof.
  destruct s as [|c s]; [done|]. intros Hc.
  destruct (trimEnd_prefix (c :: s)) as (q & Hs & Hq).
  destruct (trimEnd (c :: s)) as [|d t]; [done|].
  cbn in Hs. by injection Hs as <- _.
Qed.

Lemma trim_idemp s : trim (trim s) = trim s.
Proof.
  unfold trim at 1.
  rewrite (trimStart_fixed (trim s)) by apply trimEnd_head, trimStart_head.
  apply trimEnd_idemp.
Qed.

Lemma trim_nonempty_trimmed s : trim s ≠ [] → trim s ≠ [] ∧ trim (trim s) = trim s.
Proof. intros Hs. split; [done | apply trim_idemp]. Qed.

Lemma trimmed_content_reindex l : trimmed_content l → trimmed_content (reindex l).
Proof.
  apply (Forall_imap_preserved content (λ c, c ≠ [] ∧ trim c = c)). done.
Qed.

Lemma byId_foldl_elem (l : list Item) (m : gmap string Item) k x :
  foldl (λ m i, <[id i := i]> m) m l !! k = Some x → x ∈ l ∨ m !! k = Some x.
Proof.
  revert m. induction l as [|y l IH]; intros m Hk; [by right|].
  cbn in Hk. apply IH in Hk as [Hk|Hk]; [left; by right|].
  destruct (decide (id y = k)) as [<-|Hne].
  - rewrite lookup_insert_eq in Hk. injection Hk as <-. left. by left.
  - rewrite lookup_insert_ne in Hk by done. by right.
Qed.

(** What [byId.get] returns is an item of the list. *)
Lemma byId_elem prev k x : byId prev !! k = Some x → x ∈ prev.
Proof. intros Hk. by apply byId_foldl_elem in Hk as [Hk|Hk]. Qed.

Lemma dragUpdater_elems prev active over nextItems :
  dragUpdater prev active over = Some nextItems → nextItems ⊆ prev.
Proof.
  unfold dragUpdater.
  destruct (find (λ i, id i = active) prev) as [activeItem|]; cbn; [|done].
  destruct (find (λ i, id i = over) prev) as [overItem|]; cbn; [|done].
  destruct (indexOf _ active) as [fromIndex|]; cbn; [|done].
  destruct (negb _); [done|].
  destruct (indexOf _ over) as [toIndex|]; cbn; [|done].
  intros [= <-] x Hx. apply list_elem_of_omap in Hx as (k & _ & Hk).
  by eapply byId_elem.
Qed.

Lemma trimmed_content_of_reindex l : trimmed_content (reindex l) → trimmed_content l.
Proof.
  unfold trimmed_content. intros Hl.
  assert (Hc : Forall (λ c, c ≠ [] ∧ trim c = c) (content <$> reindex l))
    by (by apply Forall_fmap).
  unfold reindex in Hc. rewrite fmap_imap_preserved in Hc by done.
  by apply Forall_fmap in Hc.
Qed.

(** X3.  If every item's content is trimmed and not empty, it is still so
    after add in the guest branch (stores the trimmed draft; the
    signed-in branch only issues a request), toggle, delete, edit
    (stores the trimmed text, or nothing when it trims to empty) and
    drag.  The callback of the signed-in add stores the title of the
    returned row as it is: it keeps the property when that title is
    trimmed and not empty, as it is when the store returns the title it
    was sent, and only then. *)
Theorem handlers_keep_trimmed_content (st : AppState) :
  trimmed_content (items st) →
  (∀ localId, trimmed_content (items (handleSubmit st localId)))
  ∧ (∀ reply current,
       trimmed_content (items current) →
       (∀ inserted, data reply ≫= head = Some inserted →
                    row_title inserted ≠ []
                    ∧ trim (row_title inserted) = row_title inserted) →
       trimmed_content (items (handleSubmit_then st reply current)))
  ∧ (∀ reply current inserted,
       error reply = None → data reply ≫= head = Some inserted →
       trimmed_content (items (handleSubmit_then st reply current)) →
       row_title inserted ≠ [] ∧ trim (row_title inserted) = row_title inserted)
  ∧ (∀ tid b, trimmed_content (items (after (handleToggle st tid b))))
  ∧ (∀ did, trimmed_content (items (after (handleDelete st did))))
  ∧ (∀ eid, trimmed_content (items (after (commitEdit st eid))))
  ∧ (∀ active over, trimmed_content (items (after (onDragEnd st active over)))).
Proof.
  intros Hst. split; [|split; [|split; [|split; [|split; [|split]]]]].
  - intros localId. unfold handleSubmit.
    destruct (truthy (trim (draft st))) eqn:Htrim; [|done].
    assert (Hcontent : trim (draft st) ≠ [] ∧ trim (trim (draft st)) = trim (draft st)).
    { apply trim_nonempty_trimmed. intros Hnil. by rewrite Hnil in Htrim. }
    assert (Hnew : trimmed_content
              (items (setDraft (syncAll st (splice_in (items st) (insertIndexOf (items st))
                (mkItem localId (trim (draft st)) false
                        (Z.of_nat (insertIndexOf (items st)))))) []))).
    { cbn [items setDraft]. rewrite items_syncAll. apply trimmed_content_reindex.
      apply Forall_app. split; [by apply Forall_take|].
      constructor; [exact Hcontent | by apply Forall_drop]. }
    cbn [negb]. destruct (session st); [destruct (hasSupabase st)|]; done.
  - intros reply current Hcurrent Htitle. unfold handleSubmit_then.
    destruct (error reply); [done|].
    destruct (data reply ≫= head) as [inserted|]; [|done].
    cbn [items setDraft]. rewrite items_syncAll_in. apply trimmed_content_reindex.
    apply Forall_app. split; [by apply Forall_take|].
    constructor; [by apply Htitle | by apply Forall_drop].
  - intros reply current inserted Herror Hdata. unfold handleSubmit_then.
    rewrite Herror, Hdata. cbn [items setDraft]. rewrite items_syncAll_in.
    intros Hall. apply trimmed_content_of_reindex in Hall.
    apply Forall_app in Hall as [_ Hall]. by apply Forall_cons in Hall as [Hnew _].
  - intros tid b. cbn. rewrite items_syncAll. apply trimmed_content_reindex.
    assert (Hu : trimmed_content (toggled (items st) tid b)).
    { apply Forall_fmap. eapply Forall_impl; [exact Hst|].
      cbn. intros x Hx. by case_decide. }
    apply Forall_app. split; by apply Forall_filter_keep.
  - intros did. cbn. rewrite items_syncAll. apply trimmed_content_reindex.
    apply Forall_filter_keep. by destruct (hasSupabase st && _).
  - intros eid. unfold commitEdit.
    destruct (truthy (trim (editingText st))) eqn:Htrim; [|done].
    assert (Hcontent : trim (editingText st) ≠ []
                       ∧ trim (trim (editingText st)) = trim (editingText st)).
    { apply trim_nonempty_trimmed. intros Hnil. by rewrite Hnil in Htrim. }
    cbn [negb after items setEditingId]. rewrite items_syncAll.
    apply trimmed_content_reindex.
    apply Forall_fmap. eapply Forall_impl; [exact Hst|].
    intros x Hx. cbn [compose]. by case_decide.
  - intros active over. unfold onDragEnd.
    destruct over as [over|]; [|done]. case_decide; [done|].
    change (items (setActiveId st None)) with (items st).
    destruct (dragUpdater (items st) active over) as [nextItems|] eqn:Hnext; [|done].
    cbn. rewrite items_syncAll. apply trimmed_content_reindex.
    apply Forall_forall. intros x Hx. unfold trimmed_content in Hst.
    rewrite Forall_forall in Hst. by eapply Hst, dragUpdater_elems.
Qed.

Lemma handlers_keep_trimmed_content_witness :
  let st := setEditingText (setDraft (setItems guest0 sample) (str "  Feed cat ")) (str " Buy oat milk  ") in
  let echoed := mkReply (Some [mkRow "r9" (trim (draft st)) false (Some 3%Z)]) None in
  let padded := mkReply (Some [mkRow "r9" (draft st) false (Some 3%Z)]) None in
  trimmed_content (items (handleSubmit st "f"))
  ∧ trimmed_content (items (handleSubmit_then (signedIn "u" st) echoed (signedIn "u" st)))
  ∧ ¬ trimmed_content (items (handleSubmit_then (signedIn "u" st) padded (signedIn "u" st)))
  ∧ trimmed_content (items (after (commitEdit st "a")))
  ∧ trimmed_content (items (after (onDragEnd st "a" (Some "c")))).
Proof.
  intros st echoed padded.
  assert (Hst : trimmed_content (items st)).
  { repeat constructor; by vm_compute. }
  destruct (handlers_keep_trimmed_content st Hst) as (Hadd & _ & _ & _ & _ & Hedit & Hdrag).
  destruct (handlers_keep_trimmed_content (signedIn "u" st) Hst)
    as (_ & Hecho & Hstored & _).
  split; [apply Hadd|]. split; [|split; [|split; [apply Hedit | apply Hdrag]]].
  - apply Hecho; [exact Hst|].
    intros inserted [= <-]. split; by vm_compute.
  - intros Hall.
    destruct (Hstored padded (signedIn "u" st) _ eq_refl eq_refl Hall) as [_ Htrimmed].
    by vm_compute in Htrimmed.
Defined.

(** ** What each mutation changes and what it keeps *)

Lemma id_reindex l : id <$> reindex l = id <$> l.
Proof. by apply fmap_imap_preserved. Qed.

Lemma content_reindex l : content <$> reindex l = content <$> l.
Proof. by apply fmap_imap_preserved. Qed.

(** X4.  Committing a non-empty edit keeps the ids and the flags of all
    items in their order and gives the trimmed text to the items whose
    id is the edited one, leaving every other content as it was; with an
    id that is not in the list nothing changes but the positions being
    reindexed.  Edit mode is left in both cases. *)
Theorem commitEdit_changes_only_content (st : AppState) (eid : string) :
  trim (editingText st) ≠ [] →
  let l' := items (after (commitEdit st eid)) in
  id <$> l' = id <$> items st
  ∧ isCompleted <$> l' = isCompleted <$> items st
  ∧ content <$> l'
    = (λ x, if decide (id x = eid) then trim (editingText st) else content x) <$> items st
  ∧ (eid ∉ id <$> items st → payload <$> l' = payload <$> items st)
  ∧ editingId (after (commitEdit st eid)) = None.
Proof.
  intros Htext l'. unfold l', commitEdit.
  rewrite (truthy_nonempty _ Htext). cbn [after items setEditingId editingId].
  rewrite items_syncAll.
  split; [|split; [|split; [|split]]]; try done.
  - rewrite id_reindex, <- list_fmap_compose.
    apply list_fmap_ext. intros i x _. cbn. by case_decide.
  - rewrite isCompleted_reindex, <- list_fmap_compose.
    apply list_fmap_ext. intros i x _. cbn. by case_decide.
  - rewrite content_reindex, <- list_fmap_compose.
    apply list_fmap_ext. intros i x _. cbn. by case_decide.
  - intros Hnot. rewrite payload_reindex. rewrite <- list_fmap_compose.
    apply list_fmap_ext. intros i x Hx. cbn. case_decide as Hid; [|done].
    destruct Hnot. rewrite <- Hid. apply list_elem_of_fmap_2.
    by eapply list_elem_of_lookup_2.
Qed.

Lemma commitEdit_changes_only_content_witness :
  let st := setEditingText (setItems guest0 sample) (str " Buy oat milk  ") in
  content <$> items (after (commitEdit st "a"))
  = [str "Buy oat milk"; str "Pay rent"; str "Call mum"; str "Book flight";
     str "Water plants"]
  ∧ payload <$> items (after (commitEdit st "zz")) = payload <$> sample.
Proof.
  intros st.
  destruct (commitEdit_changes_only_content st "a" ltac:(by vm_compute))
    as (_ & _ & Hcontent & _).
  destruct (commitEdit_changes_only_content st "zz" ltac:(by vm_compute))
    as (_ & _ & _ & Habsent & _).
  split; [etrans; [exact Hcontent | reflexivity]|].
  apply Habsent. cbn. rewrite !not_elem_of_cons.
  repeat split; try discriminate. apply not_elem_of_nil.
Defined.

Lemma handleDelete_items (st : AppState) (did : string) :
  items (after (handleDelete st did))
  = reindex (filter (λ item, id item ≠ did) (items st)).
Proof.
  unfold handleDelete. cbn. rewrite items_syncAll.
  by destruct (hasSupabase st && _).
Qed.

(** X5.  Deleting removes exactly the items with the given id and keeps
    the others in their order; an id that is not in the list leaves the
    items as they are; with unique ids a present id shortens the list by
    one.  Signed in, the row delete is issued before the write-back
    upsert of the remaining list. *)
Theorem handleDelete_removes_exactly (st : AppState) (did : string) :
  let l' := items (after (handleDelete st did)) in
  payload <$> l' = payload <$> filter (λ item, id item ≠ did) (items st)
  ∧ (did ∉ id <$> l')
  ∧ (did ∉ id <$> items st → payload <$> l' = payload <$> items st)
  ∧ (NoDup (id <$> items st) → did ∈ id <$> items st →
       S (length l') = length (items st))
  ∧ (∀ u, session st = Some u → hasSupabase st = true →
       requests (after (handleDelete st did))
       = requests st ++ [Delete did; Upsert (upsertPayload u l')]).
Proof.
  intros l'.
  assert (Hl' : l' = reindex (filter (λ item, id item ≠ did) (items st))).
  { unfold l', handleDelete. cbn. rewrite items_syncAll.
    by destruct (hasSupabase st && _). }
  split; [by rewrite Hl', payload_reindex|]. split; [|split; [|split]].
  - rewrite Hl', id_reindex.
    intros Hin. apply list_elem_of_fmap in Hin as (x & Hid & Hx).
    by apply list_elem_of_filter in Hx as [Hx _].
  - intros Hnot. rewrite Hl', payload_reindex. f_equal. apply filter_all.
    apply Forall_forall. intros x Hx Hid. apply Hnot. rewrite <- Hid.
    by apply list_elem_of_fmap_2.
  - intros Hnd Hin. rewrite Hl', length_reindex.
    apply list_elem_of_fmap in Hin as (x & -> & Hx).
    apply list_elem_of_lookup in Hx as [i Hi].
    rewrite (filter_out_moved (items st) i x Hnd Hi). unfold splice_out.
    rewrite <- (take_drop_middle (items st) i x Hi) at 3.
    rewrite !length_app. cbn. lia.
  - intros u Hu Hsb. unfold l', handleDelete. rewrite Hu, Hsb. cbn.
    rewrite (requests_syncAll _ _ u), items_syncAll by done.
    cbn. by rewrite <- app_assoc.
Qed.

Lemma handleDelete_removes_exactly_witness :
  let st := signedIn "u" (setItems guest0 sample) in
  S (length (items (after (handleDelete st "c")))) = 5%nat
  ∧ payload <$> items (after (handleDelete st "zz")) = payload <$> sample
  ∧ requests (after (handleDelete st "c"))
    = [Delete "c"; Upsert (upsertPayload "u" (items (after (handleDelete st "c"))))].
Proof.
  intros st.
  destruct (handleDelete_removes_exactly st "c") as (_ & _ & _ & Hlen & Hreq).
  destruct (handleDelete_removes_exactly st "zz") as (_ & _ & Habsent & _).
  split; [|split].
  - apply Hlen.
    + refine (bool_decide_unpack _ _). vm_compute. exact I.
    + cbn. rewrite !elem_of_cons. auto.
  - apply Habsent. cbn. rewrite !not_elem_of_cons.
    repeat split; try discriminate. apply not_elem_of_nil.
  - exact (Hreq "u" eq_refl eq_refl).
Defined.

Lemma with_isCompleted_same x : with_isCompleted x (isCompleted x) = x.
Proof. by destruct x. Qed.

Lemma id_toggled l tid b : id <$> toggled l tid b = id <$> l.
Proof.
  unfold toggled. rewrite <- list_fmap_compose.
  apply list_fmap_ext. intros i x _. cbn. by case_decide.
Qed.

Lemma content_toggled l tid b : content <$> toggled l tid b = content <$> l.
Proof.
  unfold toggled. rewrite <- list_fmap_compose.
  apply list_fmap_ext. intros i x _. cbn. by case_decide.
Qed.

Lemma handleToggle_ids (st : AppState) (tid : string) (b : bool) :
  id <$> items (after (handleToggle st tid b)) ≡ₚ id <$> items st
  ∧ items (after (handleToggle st tid b))
    = reindex (actives (toggled (items st) tid b) ++ completeds (toggled (items st) tid b)).
Proof.
  assert (Hl : items (after (handleToggle st tid b))
               = reindex (actives (toggled (items st) tid b)
                          ++ completeds (toggled (items st) tid b))).
  { unfold handleToggle. cbn. by rewrite items_syncAll. }
  split; [|exact Hl]. by rewrite Hl, id_reindex, segments_perm, id_toggled.
Qed.

(** X6.  Toggling keeps every item (the ids of the result are a
    permutation of the ids before, and every item of the result is an
    item of the list with at most its flag and position changed), gives
    the requested flag to every item with the toggled id, and keeps the
    flag of every other item.  On a partitioned list, setting the flag
    an item already has, or toggling an id that is not in the list,
    changes nothing. *)
Theorem handleToggle_flags (st : AppState) (tid : string) (b : bool) :
  let l' := items (after (handleToggle st tid b)) in
  id <$> l' ≡ₚ id <$> items st
  ∧ (∀ y, y ∈ l' →
       ∃ x, x ∈ items st ∧ id x = id y ∧ content x = content y
            ∧ isCompleted y = (if decide (id x = tid) then b else isCompleted x))
  ∧ (partitioned (items st) →
     (∀ x, x ∈ items st → id x = tid → isCompleted x = b) →
     payload <$> l' = payload <$> items st).
Proof.
  intros l'.
  assert (Hl' : l' = reindex (actives (toggled (items st) tid b)
                              ++ completeds (toggled (items st) tid b))).
  { unfold l', handleToggle. cbn. by rewrite items_syncAll. }
  split; [|split].
  - by rewrite Hl', id_reindex, segments_perm, id_toggled.
  - intros y Hy. rewrite Hl' in Hy.
    apply list_elem_of_lookup in Hy as [i Hi]. rewrite reindex_lookup in Hi.
    destruct (_ !! i) as [z|] eqn:Hz; [|done]. injection Hi as <-.
    apply list_elem_of_lookup_2 in Hz. rewrite segments_perm in Hz.
    apply list_elem_of_fmap in Hz as (x & -> & Hx).
    exists x. split; [done|].
    destruct (decide (id x ≠ tid)) as [Hne|Heq]; cbn.
    + by rewrite decide_False.
    + rewrite decide_True; [done|]. by destruct (decide (id x = tid)).
  - intros Hp Hsame. rewrite Hl', payload_reindex.
    assert (Hid : toggled (items st) tid b = items st).
    { unfold toggled. rewrite <- (list_fmap_id (items st)) at 2.
      apply list_fmap_ext. intros i x Hx. cbn. case_decide as Hne; [done|].
      rewrite <- (Hsame x); [apply with_isCompleted_same| |].
      - by eapply list_elem_of_lookup_2.
      - by destruct (decide (id x = tid)). }
    rewrite Hid. by apply partitioned_fixpoint in Hp as ->.
Qed.

Lemma handleToggle_flags_witness :
  let st := setItems guest0 sample in
  payload <$> items (after (handleToggle st "d" true)) = payload <$> sample
  ∧ payload <$> items (after (handleToggle st "zz" true)) = payload <$> sample.
Proof.
  intros st.
  assert (Hp : partitioned (items st)) by (by apply is_normalized_sound).
  destruct (handleToggle_flags st "d" true) as (_ & _ & Hsame).
  destruct (handleToggle_flags st "zz" true) as (_ & _ & Habsent).
  split; [apply Hsame | apply Habsent]; try exact Hp;
    refine (proj1 (Forall_forall (λ x, id x = _ → isCompleted x = true) sample) _);
    unfold sample; repeat constructor;
    intros Hid; first [discriminate Hid | reflexivity].
Defined.

(** ** Items are neither lost nor duplicated *)

Lemma splice_in_perm {A} (l : list A) i x : splice_in l i x ≡ₚ x :: l.
Proof. unfold splice_in. by rewrite <- Permutation_middle, take_drop. Qed.

Lemma dragUpdater_perm prev active over nextItems :
  NoDup (id <$> prev) →
  dragUpdater prev active over = Some nextItems → nextItems ≡ₚ prev.
Proof.
  intros Hnd. unfold dragUpdater.
  destruct (find (λ i, id i = active) prev) as [activeItem|]; cbn; [|done].
  destruct (find (λ i, id i = over) prev) as [overItem|]; cbn; [|done].
  destruct (indexOf _ active) as [fromIndex|]; cbn; [|done].
  destruct (negb _); [done|].
  destruct (indexOf _ over) as [toIndex|]; cbn; [|done].
  intros [= <-].
  transitivity (omap (λ k, byId prev !! k) (id <$> prev));
    [|by rewrite omap_byId].
  apply omap_Permutation.
  transitivity (id <$> (actives prev ++ completeds prev));
    [|by rewrite segments_perm].
  rewrite fmap_app.
  destruct (isCompleted activeItem); by rewrite arrayMove_perm.
Qed.

(** X7.  On a list with unique ids, dropping a dragged item anywhere
    leaves the same items: the result is a permutation of the list up to
    positions, so a drag never loses, duplicates or alters an item.
    Without the uniqueness assumption the length is still kept and every
    item of the result is an item of the list up to its position. *)
Theorem drag_keeps_items (st : AppState) (active : string) (over : option string) :
  let l' := items (after (onDragEnd st active over)) in
  length l' = length (items st)
  ∧ (∀ y, y ∈ l' → ∃ x, x ∈ items st ∧ payload x = payload y)
  ∧ (NoDup (id <$> items st) → payload <$> l' ≡ₚ payload <$> items st).
Proof.
  intros l'. unfold l', onDragEnd.
  assert (Hsame : ∀ y, y ∈ items st → ∃ x, x ∈ items st ∧ payload x = payload y)
    by (intros y Hy; by exists y).
  destruct over as [over|]; [|done]. case_decide; [done|].
  change (items (setActiveId st None)) with (items st).
  destruct (dragUpdater (items st) active over) as [nextItems|] eqn:Hnext; [|done].
  cbn. rewrite items_syncAll. split; [|split].
  - rewrite length_reindex. by eapply dragUpdater_length.
  - intros y Hy. apply list_elem_of_lookup in Hy as [i Hi].
    rewrite reindex_lookup in Hi.
    destruct (nextItems !! i) as [z|] eqn:Hz; [|done]. injection Hi as <-.
    exists z. split; [|done].
    eapply dragUpdater_elems; [exact Hnext|]. by eapply list_elem_of_lookup_2.
  - intros Hnd. rewrite payload_reindex.
    by rewrite (dragUpdater_perm _ _ _ _ Hnd Hnext).
Qed.

Lemma drag_keeps_items_witness :
  payload <$> items (after (onDragEnd (setItems guest0 sample) "e" (Some "d")))
  ≡ₚ payload <$> sample.
Proof.
  destruct (drag_keeps_items (setItems guest0 sample) "e" (Some "d")) as (_ & _ & Hperm).
  apply Hperm. refine (bool_decide_unpack _ _). vm_compute. exact I.
Defined.

(** X8.  Unique ids are kept: from a list with unique ids, adding an item
    whose id is new (the local id in the guest branch, the id of the
    inserted row in the signed-in callback), toggling, deleting, editing
    and dragging all leave a list with unique ids. *)
Theorem handlers_keep_unique_ids (st : AppState) :
  NoDup (id <$> items st) →
  (∀ localId, localId ∉ id <$> items st →
     NoDup (id <$> items (handleSubmit st localId)))
  ∧ (∀ reply current,
       NoDup (id <$> items current) →
       (∀ inserted, data reply ≫= head = Some inserted →
                    row_id inserted ∉ id <$> items st) →
       NoDup (id <$> items (handleSubmit_then st reply current)))
  ∧ (∀ tid b, NoDup (id <$> items (after (handleToggle st tid b))))
  ∧ (∀ did, NoDup (id <$> items (after (handleDelete st did))))
  ∧ (∀ eid, NoDup (id <$> items (after (commitEdit st eid))))
  ∧ (∀ active over, NoDup (id <$> items (after (onDragEnd st active over)))).
Proof.
  intros Hnd.
  assert (Hadd : ∀ x, id x ∉ id <$> items st →
            NoDup (id <$> reindex (splice_in (items st) (insertIndexOf (items st)) x))).
  { intros x Hx. rewrite id_reindex, splice_in_perm. cbn. by apply NoDup_cons. }
  split; [|split; [|split; [|split; [|split]]]].
  - intros localId Hfresh. unfold handleSubmit.
    destruct (negb _); [done|].
    destruct (session st); [destruct (hasSupabase st)|]; try done;
      cbn [items setDraft]; rewrite items_syncAll; by apply Hadd.
  - intros reply current Hcurrent Hfresh. unfold handleSubmit_then.
    destruct (error reply); [done|].
    destruct (data reply ≫= head) as [inserted|] eqn:Hdata; [|done].
    cbn [items setDraft]. rewrite items_syncAll_in. apply Hadd. cbn. by apply Hfresh.
  - intros tid b. destruct (handleToggle_ids st tid b) as [Hperm _]. by rewrite Hperm.
  - intros did. cbn. rewrite items_syncAll, id_reindex.
    apply NoDup_id_filter. by destruct (hasSupabase st && _).
  - intros eid. unfold commitEdit. destruct (negb _); [done|].
    cbn. rewrite items_syncAll, id_reindex, <- list_fmap_compose.
    erewrite list_fmap_ext; [exact Hnd|]. intros i x _. cbn. by case_decide.
  - intros active over. unfold onDragEnd.
    destruct over as [over|]; [|done]. case_decide; [done|].
    change (items (setActiveId st None)) with (items st).
    destruct (dragUpdater (items st) active over) as [nextItems|] eqn:Hnext; [|done].
    cbn. rewrite items_syncAll, id_reindex.
    by rewrite (dragUpdater_perm _ _ _ _ Hnd Hnext).
Qed.

Lemma handlers_keep_unique_ids_witness :
  let st := setDraft (setItems guest0 sample) (str "Feed cat") in
  NoDup (id <$> items (handleSubmit st "f"))
  ∧ NoDup (id <$> items (after (handleToggle st "b" true)))
  ∧ NoDup (id <$> items (after (onDragEnd st "a" (Some "c")))).
Proof.
  intros st.
  assert (Hnd : NoDup (id <$> items st))
    by (refine (bool_decide_unpack _ _); vm_compute; exact I).
  destruct (handlers_keep_unique_ids st Hnd) as (Hadd & _ & Htoggle & _ & _ & Hdrag).
  split; [|split; [apply Htoggle | apply Hdrag]].
  apply Hadd. cbn. rewrite !not_elem_of_cons.
  repeat split; try discriminate. apply not_elem_of_nil.
Defined.

(** ** The drop as the rendered list shows it *)

Lemma splice_out_app_l {A} (a c : list A) from :
  (from < length a)%nat → splice_out (a ++ c) from = splice_out a from ++ c.
Proof.
  intros Hfrom. unfold splice_out. rewrite take_app, drop_app.
  replace (from - length a)%nat with 0%nat by lia.
  replace (S from - length a)%nat with 0%nat by lia.
  cbn. by rewrite app_nil_r, <- app_assoc.
Qed.

Lemma splice_in_app_l {A} (s c : list A) to x :
  (to ≤ length s)%nat → splice_in (s ++ c) to x = splice_in s to x ++ c.
Proof.
  intros Hto. unfold splice_in. rewrite take_app, drop_app.
  replace (to - length s)%nat with 0%nat by lia.
  cbn. by rewrite app_nil_r, <- app_assoc.
Qed.

Lemma arrayMove_app_l {A} (a c : list A) from to :
  (from < length a)%nat → (to < length a)%nat →
  arrayMove (a ++ c) from to = arrayMove a from to ++ c.
Proof.
  intros Hfrom Hto. unfold arrayMove.
  rewrite lookup_app_l by done.
  destruct (a !! from) as [x|] eqn:Hx; [|done].
  rewrite splice_out_app_l by done. apply splice_in_app_l.
  unfold splice_out. rewrite length_app, length_take, length_drop. lia.
Qed.

Lemma arrayMove_app_r {A} (a c : list A) from to :
  arrayMove (a ++ c) (length a + from) (length a + to) = a ++ arrayMove c from to.
Proof.
  unfold arrayMove. rewrite lookup_app_r by lia.
  replace (length a + from - length a)%nat with from by lia.
  destruct (c !! from) as [x|] eqn:Hx; [|done].
  assert (Hout : splice_out (a ++ c) (length a + from) = a ++ splice_out c from).
  { unfold splice_out. rewrite take_app, drop_app.
    rewrite take_ge, drop_ge by lia.
    replace (length a + from - length a)%nat with from by lia.
    replace (S (length a + from) - length a)%nat with (S from) by lia.
    cbn. by rewrite <- app_assoc. }
  rewrite Hout. unfold splice_in. rewrite take_app, drop_app.
  rewrite take_ge, drop_ge by lia.
  replace (length a + to - length a)%nat with to by lia.
  cbn. by rewrite <- app_assoc.
Qed.

Lemma arrayMove_same {A} (l : list A) i : arrayMove l i i = l.
Proof.
  unfold arrayMove. destruct (l !! i) as [x|] eqn:Hi; [|done].
  pose proof (lookup_lt_Some _ _ _ Hi) as Hlt.
  unfold splice_in, splice_out. rewrite take_app, drop_app.
  rewrite !length_take_le by lia.
  rewrite Nat.sub_diag. cbn. rewrite take_take, app_nil_r.
  replace (i `min` i)%nat with i by lia.
  rewrite drop_ge by (rewrite length_take; lia).
  cbn. by apply take_drop_middle.
Qed.

Lemma list_find_at (seg : list Item) i x :
  NoDup (id <$> seg) → seg !! i = Some x →
  list_find (λ z, id z = id x) seg = Some (i, x).
Proof.
  intros Hnd Hi.
  destruct (find_unique seg x Hnd) as [j Hj]; [by eapply list_elem_of_lookup_2|].
  pose proof Hj as Hfound. apply list_find_Some in Hj as (Hj & _ & _).
  assert (i = j) as ->; [|done].
  apply (NoDup_lookup (id <$> seg) i j (id x) Hnd);
    rewrite list_lookup_fmap; [by rewrite Hi | by rewrite Hj].
Qed.

(** The updater of [onDragEnd] in terms of the indices of the two items
    in their segment. *)
Lemma dragUpdater_at prev (x y : Item) i j :
  NoDup (id <$> prev) →
  let seg := if isCompleted x then completeds prev else actives prev in
  seg !! i = Some x → seg !! j = Some y →
  dragUpdater prev (id x) (id y)
  = Some (if isCompleted x then actives prev ++ arrayMove seg i j
          else arrayMove seg i j ++ completeds prev).
Proof.
  intros Hnd seg Hi Hj.
  assert (Hseg : seg ⊆ prev ∧ NoDup (id <$> seg)
                 ∧ ∀ z, z ∈ seg → isCompleted z = isCompleted x).
  { unfold seg. destruct (isCompleted x); (split; [apply list_subseteq_filter|]);
      (split; [by apply NoDup_id_filter|]);
      intros z Hz; by apply list_elem_of_filter in Hz as [? _]. }
  destruct Hseg as (Hsub & Hnds & Hflag).
  pose proof (list_elem_of_lookup_2 _ _ _ Hi) as Hx.
  pose proof (list_elem_of_lookup_2 _ _ _ Hj) as Hy.
  rewrite (dragUpdater_same_segment prev x y)
    by (auto; symmetry; by apply Hflag).
  unfold reassembled_spec. rewrite (find_in prev x) by auto.
  pose proof (arrayMove_moveWithin seg (id x) (id y) i j x y Hnds
                (list_find_at seg i x Hnds Hi) (list_find_at seg j y Hnds Hj)) as Hmove.
  unfold seg in *. destruct (isCompleted x); by rewrite Hmove.
Qed.

Lemma payload_visible_reindex flt l :
  payload <$> visibleItems flt (reindex l) = payload <$> visibleItems flt l.
Proof.
  unfold visibleItems. repeat case_decide;
    auto using payload_actives_reindex, payload_completeds_reindex, payload_reindex.
Qed.

(** X9.  On a partitioned list with unique ids, when the dragged item and
    the drop target are two rows of the rendered list ([visibleItems]
    under any filter) and are in the same segment, which is always the
    case under the "active" and "completed" filters, the rendered list
    after the drop is, up to positions, the rendered list before it
    with the row moved from its index to the target's index by
    [arrayMove]. *)
Theorem drop_matches_rendered_move
    (st : AppState) (flt : string) (from to : nat) (x y : Item) :
  partitioned (items st) → NoDup (id <$> items st) →
  visibleItems flt (items st) !! from = Some x →
  visibleItems flt (items st) !! to = Some y →
  flt = "active" ∨ flt = "completed" ∨ isCompleted x = isCompleted y →
  payload <$> visibleItems flt (items (after (onDragEnd st (id x) (Some (id y)))))
  = payload <$> arrayMove (visibleItems flt (items st)) from to.
Proof.
  intros Hp Hnd Hfrom Hto Hsame.
  set (l := items st) in *. set (a := actives l). set (c := completeds l).
  assert (Hl : l = a ++ c) by (symmetry; by apply partitioned_fixpoint).
  assert (Ha : Forall (λ z, isCompleted z = false) a) by apply Forall_actives.
  assert (Hc : Forall (λ z, isCompleted z = true) c) by apply Forall_completeds.
  rewrite Forall_forall in Ha. rewrite Forall_forall in Hc.
  assert (Hvis : visibleItems flt l ⊆ l).
  { unfold visibleItems. repeat case_decide; try apply list_subseteq_filter. done. }
  assert (Hndv : NoDup (id <$> visibleItems flt l)).
  { unfold visibleItems. repeat case_decide; try by apply NoDup_id_filter. done. }
  destruct (decide (from = to)) as [->|Hne].
  { (* dropped on itself: nothing happens *)
    assert (x = y) as <- by congruence.
    unfold onDragEnd. rewrite decide_True by done. cbn. by rewrite arrayMove_same. }
  assert (Hid : id x ≠ id y).
  { intros Heq. apply Hne.
    apply (NoDup_lookup (id <$> visibleItems flt l) from to (id x) Hndv);
      rewrite list_lookup_fmap; [by rewrite Hfrom | by rewrite Hto, Heq]. }
  (* the indices of the two rows in their segment *)
  assert (Hgoal : ∀ i j,
            (if isCompleted x then c else a) !! i = Some x →
            (if isCompleted x then c else a) !! j = Some y →
            payload <$> visibleItems flt
                          (if isCompleted x then a ++ arrayMove c i j
                           else arrayMove a i j ++ c)
            = payload <$> arrayMove (visibleItems flt l) from to →
            payload <$> visibleItems flt (items (after (onDragEnd st (id x) (Some (id y)))))
            = payload <$> arrayMove (visibleItems flt l) from to).
  { intros i j Hi Hj Hmove. unfold onDragEnd. rewrite decide_False by done.
    change (items (setActiveId st None)) with l.
    rewrite (dragUpdater_at l x y i j Hnd Hi Hj). cbn.
    rewrite items_syncAll, payload_visible_reindex.
    fold a c. destruct (isCompleted x); exact Hmove. }
  assert (Hmoved_a : ∀ i j, Forall (λ z, isCompleted z = false) (arrayMove a i j)).
  { intros i j. rewrite arrayMove_perm. by apply Forall_forall. }
  assert (Hmoved_c : ∀ i j, Forall (λ z, isCompleted z = true) (arrayMove c i j)).
  { intros i j. rewrite arrayMove_perm. by apply Forall_forall. }
  unfold visibleItems in *.
  destruct (decide (flt = "active")) as [Hact|Hnact].
  { (* active filter: the rendered list is the active segment *)
    fold a in Hfrom, Hto |- *.
    pose proof (Ha _ (list_elem_of_lookup_2 _ _ _ Hfrom)) as Hx.
    apply (Hgoal from to); rewrite Hx; try done.
    by rewrite actives_split by (auto; by apply Forall_forall). }
  destruct (decide (flt = "completed")) as [Hcomp|Hncomp].
  { fold c in Hfrom, Hto |- *.
    pose proof (Hc _ (list_elem_of_lookup_2 _ _ _ Hfrom)) as Hx.
    apply (Hgoal from to); rewrite Hx; try done.
    by rewrite completeds_split by (auto; by apply Forall_forall). }
  destruct Hsame as [?|[?|Hflag]]; [done|done|].
  rewrite Hl in Hfrom, Hto.
  destruct (isCompleted x) eqn:Hx.
  - (* both rows in the completed segment *)
    assert (Hge : ∀ k z, (a ++ c) !! k = Some z → isCompleted z = true →
              (length a ≤ k)%nat ∧ c !! (k - length a)%nat = Some z).
    { intros k z Hk Hz. destruct (decide (k < length a)%nat) as [Hlt|Hge].
      - rewrite lookup_app_l in Hk by done.
        apply list_elem_of_lookup_2, Ha in Hk. congruence.
      - split; [lia|]. by rewrite lookup_app_r in Hk by lia. }
    destruct (Hge from x Hfrom Hx) as [Hf Hi].
    destruct (Hge to y Hto ltac:(congruence)) as [Ht Hj].
    apply (Hgoal _ _ Hi Hj). rewrite Hl.
    rewrite <- arrayMove_app_r. do 3 f_equal; lia.
  - assert (Hlt : ∀ k z, (a ++ c) !! k = Some z → isCompleted z = false →
              (k < length a)%nat ∧ a !! k = Some z).
    { intros k z Hk Hz. destruct (decide (k < length a)%nat) as [Hlt|Hge].
      - split; [done|]. by rewrite lookup_app_l in Hk.
      - rewrite lookup_app_r in Hk by lia.
        apply list_elem_of_lookup_2, Hc in Hk. congruence. }
    destruct (Hlt from x Hfrom Hx) as [Hf Hi].
    destruct (Hlt to y Hto ltac:(congruence)) as [Ht Hj].
    apply (Hgoal _ _ Hi Hj). rewrite Hl. by rewrite arrayMove_app_l.
Qed.

Lemma drop_matches_rendered_move_witness :
  let st := setItems guest0 sample in
  payload <$> visibleItems "completed" (items (after (onDragEnd st "e" (Some "d"))))
  = payload <$> [item_e; item_d]
  ∧ payload <$> visibleItems "all" (items (after (onDragEnd st "a" (Some "c"))))
    = payload <$> [item_b; item_c; item_a; item_d; item_e].
Proof.
  intros st.
  assert (Hp : partitioned (items st)) by (by apply is_normalized_sound).
  assert (Hnd : NoDup (id <$> items st))
    by (refine (bool_decide_unpack _ _); vm_compute; exact I).
  split.
  - exact (drop_matches_rendered_move st "completed" 1 0 item_e item_d
             Hp Hnd eq_refl eq_refl (or_intror (or_introl eq_refl))).
  - exact (drop_matches_rendered_move st "all" 0 2 item_a item_c
             Hp Hnd eq_refl eq_refl (or_intror (or_intror eq_refl))).
Defined.

(** ** Rows read back from the store *)

Lemma normalizeRows_unfold rows :
  normalizeRows rows = sortByPosition (imap itemOfRow rows).
Proof. done. Qed.

Lemma insertByPosition_sorted x l :
  StronglySorted (λ u v, (position u ≤ position v)%Z) l →
  StronglySorted (λ u v, (position u ≤ position v)%Z) (insertByPosition x l).
Proof.
  induction 1 as [|y l Hl IH Hy]; cbn; [by repeat constructor|].
  destruct (position x <=? position y)%Z eqn:Hxy.
  - apply Z.leb_le in Hxy. constructor; [by constructor|].
    constructor; [done|]. eapply Forall_impl; [exact Hy|]. cbn. lia.
  - apply Z.leb_gt in Hxy. constructor; [done|].
    rewrite insertByPosition_perm. constructor; [lia | done].
Qed.

Lemma sortByPosition_sorted l :
  StronglySorted (λ u v, (position u ≤ position v)%Z) (sortByPosition l).
Proof.
  induction l as [|x l IH]; cbn; [constructor | by apply insertByPosition_sorted].
Qed.

(** Stability: the items with one given position keep their order. *)
Lemma insertByPosition_stable p x l :
  filter (λ z, position z = p) (insertByPosition x l)
  = filter (λ z, position z = p) (x :: l).
Proof.
  induction l as [|y l IH]; [done|]. cbn [insertByPosition].
  destruct (position x <=? position y)%Z eqn:Hxy; [done|].
  apply Z.leb_gt in Hxy.
  rewrite (filter_cons _ y), IH, !filter_cons.
  repeat case_decide; try done; lia.
Qed.

Lemma sortByPosition_stable p l :
  filter (λ z, position z = p) (sortByPosition l) = filter (λ z, position z = p) l.
Proof.
  induction l as [|x l IH]; [done|]. cbn [sortByPosition foldr].
  fold (sortByPosition l). rewrite insertByPosition_stable, !filter_cons, IH. done.
Qed.

(** X10.  [normalizeRows] returns one item per fetched row (same id,
    title and flag; the row's position when it is a number, the row's
    index otherwise), in ascending order of position, and rows with
    equal positions keep the order in which they were fetched (so the
    store's tie-break by creation time survives). *)
Theorem normalizeRows_sorted_stable (rows : list Row) :
  normalizeRows rows ≡ₚ imap itemOfRow rows
  ∧ length (normalizeRows rows) = length rows
  ∧ payload <$> normalizeRows rows
    ≡ₚ (λ r, (row_id r, row_title r, row_completed r)) <$> rows
  ∧ StronglySorted (λ u v, (position u ≤ position v)%Z) (normalizeRows rows)
  ∧ (∀ p, filter (λ z, position z = p) (normalizeRows rows)
          = filter (λ z, position z = p) (imap itemOfRow rows)).
Proof.
  rewrite normalizeRows_unfold.
  split; [apply sortByPosition_perm|]. split; [by rewrite sortByPosition_perm, length_imap|].
  split; [|split; [apply sortByPosition_sorted | intros p; apply sortByPosition_stable]].
  rewrite sortByPosition_perm, fmap_imap.
  assert (Heq : ∀ (k : nat) (l : list Row),
            imap (λ n, payload ∘ itemOfRow (k + n)) l
            = (λ r, (row_id r, row_title r, row_completed r)) <$> l).
  { intros k l. revert k. induction l as [|r l IH]; intros k; [done|].
    cbn. f_equal. rewrite <- (IH (S k)). apply imap_ext. intros i z _.
    cbn. by rewrite Nat.add_succ_r. }
  by rewrite <- (Heq 0%nat rows).
Qed.

Example normalizeRows_sample :
  id <$> normalizeRows [mkRow "x" [] false (Some 2%Z); mkRow "y" [] true None;
                        mkRow "z" [] false (Some 1%Z); mkRow "w" [] false (Some 1%Z)]
  = ["y"; "z"; "w"; "x"].
Proof. reflexivity. Qed.

(** ** Writing through and reading back *)

Lemma dense_from_sorted (k : nat) (l : list Item) :
  (∀ i x, l !! i = Some x → position x = Z.of_nat (k + i)) →
  StronglySorted (λ u v, (position u < position v)%Z) l.
Proof.
  revert k. induction l as [|x l IH]; intros k Hd; constructor.
  - apply (IH (S k)). intros i y Hi. rewrite (Hd (S i) y Hi). f_equal. lia.
  - apply Forall_forall. intros y Hy. apply list_elem_of_lookup in Hy as [i Hi].
    rewrite (Hd 0%nat x eq_refl), (Hd (S i) y Hi). lia.
Qed.

Lemma dense_sorted l : dense l → StronglySorted (λ u v, (position u < position v)%Z) l.
Proof. intros Hd. by apply (dense_from_sorted 0). Qed.

(** A list sorted by position is the only sorted arrangement of its
    items when the positions are all different. *)
Lemma sorted_perm_unique (l s : list Item) :
  StronglySorted (λ u v, (position u < position v)%Z) l →
  StronglySorted (λ u v, (position u ≤ position v)%Z) s →
  s ≡ₚ l → s = l.
Proof.
  intros Hl. revert s. induction Hl as [|x l Hl IH Hx]; intros s Hs Hperm.
  - by apply Permutation_nil_r in Hperm.
  - destruct Hs as [|y s Hs Hy].
    + by apply Permutation_nil_cons in Hperm.
    + rewrite Forall_forall in Hx. rewrite Forall_forall in Hy.
      assert (y = x) as ->.
      { assert (Hyl : y ∈ x :: l) by (rewrite <- Hperm; by left).
        apply elem_of_cons in Hyl as [->|Hyl]; [done|].
        assert (Hxs : x ∈ y :: s) by (rewrite Hperm; by left).
        apply elem_of_cons in Hxs as [->|Hxs]; [done|].
        specialize (Hx y Hyl). specialize (Hy x Hxs). lia. }
      f_equal. apply IH; [done|]. by apply Permutation_cons_inv in Hperm.
Qed.

Lemma itemOfRow_numbered rows :
  Forall (λ r, is_Some (row_position r)) rows →
  imap itemOfRow rows = itemOfRow 0 <$> rows.
Proof.
  intros Hrows. apply list_eq. intros i.
  rewrite list_lookup_imap, list_lookup_fmap.
  destruct (rows !! i) as [r|] eqn:Hi; [|done]. cbn.
  rewrite Forall_forall in Hrows.
  destruct (Hrows r) as [p Hp]; [by eapply list_elem_of_lookup_2|].
  unfold itemOfRow. by rewrite Hp.
Qed.

Lemma itemOfRow_upserted u l :
  itemOfRow 0 <$> (rowOfUpsert <$> upsertPayload u l) = l.
Proof.
  unfold upsertPayload. rewrite <- !list_fmap_compose.
  rewrite <- (list_fmap_id l) at 2. apply list_fmap_ext.
  intros i x _. by destruct x.
Qed.

(** X11.  What [syncAll] upserts is read back unchanged: if the list is
    in normal form and a later fetch returns the rows of its upsert
    payload, in any order, then [normalizeRows] followed by
    [orderByCompletion] (as [loadAndMerge] applies them) gives the same
    list, ids, contents, flags and positions. *)
Theorem upsert_reload_roundtrip (l : list Item) (u : string) (rows : list Row) :
  normalized l →
  rows ≡ₚ rowOfUpsert <$> upsertPayload u l →
  orderByCompletion (normalizeRows rows) = l.
Proof.
  intros Hl Hrows.
  assert (Hnum : Forall (λ r, is_Some (row_position r)) rows).
  { rewrite Hrows. apply Forall_fmap, Forall_forall. intros r _. by eexists. }
  assert (Hsorted : normalizeRows rows = l).
  { rewrite normalizeRows_unfold, itemOfRow_numbered by done.
    apply sorted_perm_unique.
    - apply dense_sorted, Hl.
    - apply sortByPosition_sorted.
    - by rewrite sortByPosition_perm, Hrows, itemOfRow_upserted. }
  rewrite Hsorted. by apply orderByCompletion_fixed.
Qed.

Lemma upsert_reload_roundtrip_witness :
  orderByCompletion (normalizeRows (reverse (rowOfUpsert <$> upsertPayload "u" sample)))
  = sample.
Proof.
  apply (upsert_reload_roundtrip sample "u").
  - by apply is_normalized_sound.
  - apply reverse_Permutation.
Defined.

(** X12.  In guest mode a mutation never talks to the remote store, and
    what it leaves in local storage is the list itself: with storage
    available and writable, loading the guest blob again (as the initial
    state of the component does, with [reindex]) gives back the current
    list.  When storage is missing or the write throws, the list in
    memory is still updated and the stored blob is the one from before.
    After [clearGuestItems] nothing is loaded. *)
Theorem guest_store_roundtrip (st : AppState) (l : list Item) :
  guestMode st = true →
  requests (syncAll st l) = requests st
  ∧ items (syncAll st l) = reindex l
  ∧ (hasLocalStorage st = true → storageWritable st = true →
       reindex (loadGuestItems (syncAll st l)) = items (syncAll st l))
  ∧ (hasLocalStorage st = false ∨ storageWritable st = false →
       loadGuestItems (syncAll st l) = loadGuestItems st)
  ∧ loadGuestItems (clearGuestItems (syncAll st l)) = [].
Proof.
  intros Hguest.
  assert (Hsync : syncAll st l = persistGuestItems (setItems st (reindex l)) (reindex l)).
  { unfold syncAll, syncAll_in, guestMode in *.
    destruct (session st), (hasSupabase st); cbn in Hguest; done. }
  split; [|split; [apply items_syncAll|split; [|split]]].
  - rewrite Hsync. unfold persistGuestItems. cbn.
    by destruct (hasLocalStorage st), (storageWritable st).
  - intros Hls Hw. rewrite items_syncAll, Hsync.
    unfold persistGuestItems, loadGuestItems. cbn. rewrite Hls, Hw. cbn. rewrite Hls.
    change (reindex (reindex l) = reindex l). apply reindex_dense, dense_reindex.
  - intros Hfail. rewrite Hsync. unfold persistGuestItems, loadGuestItems. cbn.
    destruct (hasLocalStorage st) eqn:Hls; cbn; rewrite ?Hls; [|done].
    destruct Hfail as [?|Hw]; [done|]. rewrite Hw. cbn. by rewrite Hls.
  - rewrite Hsync. unfold persistGuestItems, clearGuestItems, loadGuestItems. cbn.
    destruct (hasLocalStorage st) eqn:Hls, (storageWritable st) eqn:Hw; cbn;
      rewrite ?Hls; cbn; rewrite ?Hls; done.
Qed.

Lemma guest_store_roundtrip_witness :
  let st := syncAll guest0 [item_d; item_a] in
  reindex (loadGuestItems st) = items st
  ∧ items st = [with_position item_d 0; with_position item_a 1].
Proof.
  intros st.
  destruct (guest_store_roundtrip guest0 [item_d; item_a] eq_refl)
    as (_ & Hitems & Hload & _).
  split; [exact (Hload eq_refl eq_refl) | exact Hitems].
Defined.

(** ** Whole runs of the merge *)

Lemma run_invariant (P : AppState * Merge → Prop) (Q : Event → Prop) c es :
  (∀ c e, Q e → P c → P (step c e)) → Forall Q es → P c → P (run c es).
Proof.
  intros Hstep Hes. revert c. unfold run.
  induction Hes as [|e es He _ IH]; intros c Hc; [done|].
  cbn. by apply IH, Hstep.
Qed.

Lemma step_log (st0 : AppState) c e : merge_log_at st0 c → merge_log_at st0 (step c e).
Proof.
  destruct c as [st m]. intros (issued & Hreq & Hok & Hpt). cbn in Hreq, Hpt.
  unfold merge_log_at.
  destruct e as [|reply|insertError|upsertError]; cbn [step].
  - exists issued. cbn. by destruct (point m).
  - destruct (point m) as [guestItems|existing|existing|] eqn:Hp.
    + subst issued. unfold afterFetch.
      destruct (cancelled m); [by exists []|].
      destruct (error reply); [by exists []|].
      destruct guestItems as [|g gs]; cbn.
      * eexists [Upsert _]. by rewrite Hreq, <- app_assoc.
      * eexists [Insert _]. rewrite Hreq, <- app_assoc. eauto.
    + exists issued. cbn. by rewrite Hp.
    + destruct Hpt as (rows & ->). unfold afterRefetch.
      destruct (cancelled m); [by eexists [Insert _; Select _]|].
      destruct (error reply); [by eexists [Insert _; Select _]|].
      destruct (data reply); cbn.
      * eexists [Insert _; Select _; Upsert _]. by rewrite Hreq, <- app_assoc.
      * by eexists [Insert _; Select _].
    + exists issued. cbn. by rewrite Hp.
  - destruct (point m) as [guestItems|existing|existing|] eqn:Hp;
      try (exists issued; cbn; by rewrite Hp).
    destruct Hpt as (rows & ->). unfold afterInsert.
    destruct (cancelled m); [by eexists [Insert _]|].
    destruct insertError; cbn; [by eexists [Insert _]|].
    eexists [Insert _; Select _].
    assert (Hclear : requests (clearGuestItems st) = requests st)
      by (unfold clearGuestItems; by destruct (hasLocalStorage st)).
    rewrite Hclear, Hreq, <- app_assoc. eauto.
  - exists issued. destruct (writebacks m); cbn; [done|].
    split; [by destruct upsertError|]. split; [done|]. by destruct (point m).
Qed.

Lemma step_blob c e :
  guestBlob (step c e).1 = guestBlob c.1 ∨ guestBlob (step c e).1 = Absent.
Proof.
  destruct c as [st m].
  destruct e as [|reply|insertError|upsertError]; cbn [step]; [by left|..].
  - destruct (point m); try (by left);
      unfold afterFetch, afterRefetch; destruct (cancelled m); try (by left);
      destruct (error reply); try (by left).
    + destruct guestItems; by left.
    + destruct (data reply); by left.
  - destruct (point m); try (by left).
    unfold afterInsert. destruct (cancelled m); [by left|].
    destruct insertError; [by left|]. cbn. unfold clearGuestItems.
    destruct (hasLocalStorage st); [by right | by left].
  - destruct (writebacks m); [by left|]. destruct upsertError; by left.
Qed.

Lemma step_loading c e :
  e ≠ Cancel →
  cancelled c.2 = false ∧ (point c.2 = Returned → isLoading c.1 = false) →
  cancelled (step c e).2 = false
  ∧ (point (step c e).2 = Returned → isLoading (step c e).1 = false).
Proof.
  destruct c as [st m]. intros He [Hc Hl]. cbn in Hc, Hl.
  destruct e as [|reply|insertError|upsertError]; [done|..]; cbn [step].
  - destruct (point m) eqn:Hp;
      try (split; [done | cbn; intros; first [congruence | by apply Hl]]).
    + unfold afterFetch. rewrite Hc. destruct (error reply); [done|].
      by destruct guestItems.
    + unfold afterRefetch. rewrite Hc. destruct (error reply); [done|].
      by destruct (data reply).
  - destruct (point m) eqn:Hp;
      try (split; [done | cbn; intros; first [congruence | by apply Hl]]).
    unfold afterInsert. rewrite Hc. by destruct insertError.
  - destruct (writebacks m); [done|]. cbn. split; [done|].
    intros Hp. specialize (Hl Hp). by destruct upsertError.
Qed.

(** X13.  Whatever replies and cancellations follow, in whatever order,
    one run of [loadAndMerge] issues its first [select] and then at most
    one bulk insert, one more [select] and one write-back upsert, in
    that order, and never a row delete; it never writes the guest blob
    (it leaves it or removes it); and a run that is not cancelled has
    cleared the loading flag whenever it has returned. *)
Theorem merge_run_discipline (st : AppState) (c0 : AppState * Merge) (es : list Event) :
  loadAndMerge st = Some c0 →
  let c := run c0 es in
  (∃ issued, requests c.1 = requests st ++ Select (user c.2) :: issued
             ∧ merge_protocol issued = true)
  ∧ (guestBlob c.1 = guestBlob st ∨ guestBlob c.1 = Absent)
  ∧ (Cancel ∉ es → point c.2 = Returned → isLoading c.1 = false).
Proof.
  intros Hstart c.
  assert (Hc0 : merge_log_at st c0 ∧ guestBlob c0.1 = guestBlob st
                ∧ cancelled c0.2 = false ∧ point c0.2 ≠ Returned).
  { unfold loadAndMerge in Hstart.
    destruct (session st) as [u|]; [|done].
    destruct (hasSupabase st); [|done]. injection Hstart as <-.
    split; [by exists []|]. done. }
  destruct Hc0 as (Hlog & Hblob & Hcancel & Hpoint).
  split; [|split].
  - destruct (run_invariant (merge_log_at st) (λ _, True) c0 es) as (issued & Hreq & Hok & _).
    + intros ? ? _. apply step_log.
    + by apply Forall_true.
    + done.
    + by exists issued.
  - apply (run_invariant (λ c, guestBlob c.1 = guestBlob st ∨ guestBlob c.1 = Absent)
             (λ _, True)); [|by apply Forall_true|by left].
    intros c' e _ [Hc'|Hc']; destruct (step_blob c' e) as [Hs|Hs]; rewrite Hs; auto.
  - intros Hnever.
    apply (run_invariant
             (λ c, cancelled c.2 = false ∧ (point c.2 = Returned → isLoading c.1 = false))
             (λ e, e ≠ Cancel)); [apply step_loading| |done].
    apply Forall_forall. by intros e He ->.
Qed.

Lemma merge_run_discipline_witness :
  let final := run (started merging)
    [SelectReplied (mkReply (Some [row_1; row_2]) None);
     InsertReplied None;
     WritebackReplied None;
     SelectReplied (mkReply (Some [row_1; row_2]) None);
     WritebackReplied (Some "late")] in
  isLoading final.1 = false
  ∧ (guestBlob final.1 = guestBlob merging ∨ guestBlob final.1 = Absent).
Proof.
  intros final.
  destruct (merge_run_discipline merging (started merging)
              [SelectReplied (mkReply (Some [row_1; row_2]) None);
               InsertReplied None;
               WritebackReplied None;
               SelectReplied (mkReply (Some [row_1; row_2]) None);
               WritebackReplied (Some "late")] eq_refl) as (_ & Hblob & Hloading).
  split; [|exact Hblob].
  apply Hloading; [|reflexivity].
  rewrite !not_elem_of_cons. repeat split; try discriminate. apply not_elem_of_nil.
Defined.

(** X14.  A merge started with no guest items never inserts and never
    touches the guest blob, whatever happens next.  When its fetch
    succeeds (and it has not been cancelled) it shows the fetched rows in
    normal form, writes exactly that list back with one upsert, clears
    the loading flag and returns; when the fetch fails it shows the
    error with an empty list, sends nothing more, clears the loading
    flag and returns. *)
Theorem merge_without_guest_items (st : AppState) (u : string) (reply : Reply) :
  session st = Some u → hasSupabase st = true → loadGuestItems st = [] →
  let c := step (started st) (SelectReplied reply) in
  let existing := orderByCompletion (normalizeRows (default [] (data reply))) in
  point c.2 = Returned
  ∧ isLoading c.1 = false
  ∧ guestBlob c.1 = guestBlob st
  ∧ (error reply = None →
       items c.1 = existing ∧ normalized (items c.1) ∧ dataError c.1 = ""
       ∧ requests c.1 = requests st ++ [Select u; Upsert (upsertPayload u existing)])
  ∧ (∀ message, error reply = Some message →
       items c.1 = [] ∧ dataError c.1 = message
       ∧ requests c.1 = requests st ++ [Select u])
  ∧ (∀ es, requests (run c es).1 = requests c.1).
Proof.
  intros Hu Hsb Hguest c existing.
  assert (Hstart : started st
            = (issue (setDataError (setIsLoading st true) "") (Select u),
               mkMerge false (AtFetch []) u 0)).
  { unfold started, loadAndMerge. rewrite Hu, Hsb, loadGuestItems_start, Hguest. done. }
  assert (Hc : c = afterFetch [] reply (mkMerge false (AtFetch []) u 0)
                     (issue (setDataError (setIsLoading st true) "") (Select u))).
  { unfold c. by rewrite Hstart. }
  assert (Hret : point c.2 = Returned).
  { rewrite Hc. unfold afterFetch. cbn. by destruct (error reply). }
  split; [exact Hret|]. split; [|split; [|split; [|split]]].
  - rewrite Hc. unfold afterFetch. cbn. by destruct (error reply).
  - rewrite Hc. unfold afterFetch. cbn. by destruct (error reply).
  - intros Herr. rewrite Hc. unfold afterFetch. cbn. rewrite Herr. cbn.
    fold existing. split; [done|]. split; [apply normalized_orderByCompletion|].
    split; [done|]. by rewrite <- app_assoc.
  - intros message Herr. rewrite Hc. unfold afterFetch. cbn. rewrite Herr. done.
  - intros es.
    apply (run_invariant (λ c', point c'.2 = Returned ∧ requests c'.1 = requests c.1)
             (λ _, True)); [|by apply Forall_true|done].
    intros [st' m'] e _ [Hp Hr]. cbn in Hp, Hr.
    destruct e; cbn [step]; rewrite ?Hp; try done.
    destruct (writebacks m'); [done|]. cbn. split; [done|].
    by destruct upsertError.
Qed.

Lemma merge_without_guest_items_witness :
  let c := step (started returning) (SelectReplied (mkReply (Some [row_2; row_1]) None)) in
  id <$> items c.1 = ["r1"; "r2"]
  ∧ isLoading c.1 = false
  ∧ requests c.1 = [Select "u"; Upsert (upsertPayload "u" (items c.1))].
Proof.
  intros c. subst c.
  destruct (merge_without_guest_items returning "u" (mkReply (Some [row_2; row_1]) None)
              eq_refl eq_refl eq_refl) as (_ & Hload & _ & Hok & _).
  destruct (Hok eq_refl) as (Hitems & _ & _ & Hreq).
  split; [by rewrite Hitems|]. split; [exact Hload|].
  etrans; [exact Hreq|]. by rewrite Hitems.
Defined.

(** ** Session changes *)

Lemma receiveSession_no_edge a next :
  hadSession a = false ∨ is_Some next →
  app (receiveSession a next) = setSession (app a) next.
Proof.
  intros Hno. unfold receiveSession.
  destruct next as [u|]; [done|]. cbn.
  destruct Hno as [->|[? ?]]; done.
Qed.

(** X15.  Signing out empties the list and removes the guest blob at
    once and forgets that a session was held, so the signed-out event
    that follows has nothing left to clear.  An item then added as a
    guest is the only item of the list, is in local storage (when it is
    available and writable), and it is not wiped by later events that
    carry no session, from the listener or from a late [getSession]
    reply: the list is emptied only on the edge from a held session to
    none. *)
Theorem sign_out_then_guest_work
    (a : AuthState) (d : jsstring) (localId event event' : string) :
  trim d ≠ [] →
  let a1 := handleSignOut a in
  let a2 := onAuthStateChange a1 event None in
  let a3 := setApp a2 (handleSubmit (setDraft (app a2) d) localId) in
  let a4 := getSession_then false (onAuthStateChange a3 event' None) None in
  items (app a1) = [] ∧ loadGuestItems (app a1) = [] ∧ hadSession a1 = false
  ∧ items (app a2) = [] ∧ session (app a2) = None ∧ loadGuestItems (app a2) = []
  ∧ items (app a3) = [mkItem localId (trim d) false 0]
  ∧ items (app a4) = items (app a3)
  ∧ guestBlob (app a4) = guestBlob (app a3)
  ∧ (hasLocalStorage (app a) = true → storageWritable (app a) = true →
       loadGuestItems (app a4) = items (app a3)).
Proof.
  intros Hd a1 a2 a3 a4.
  assert (Happ1 : app a1 = setItems (clearGuestItems (app a)) []).
  { unfold a1, handleSignOut. cbn. by destruct (hasSupabase _). }
  assert (Hhad1 : hadSession a1 = false).
  { unfold a1, handleSignOut. cbn. by destruct (hasSupabase _). }
  assert (Hload1 : loadGuestItems (app a1) = []).
  { rewrite Happ1. unfold loadGuestItems, clearGuestItems. cbn.
    destruct (hasLocalStorage (app a)) eqn:Hls; cbn; by rewrite ?Hls. }
  assert (Happ2 : app a2 = setSession (app a1) None).
  { unfold a2, onAuthStateChange.
    rewrite <- (receiveSession_no_edge a1 None) by auto.
    by case_decide. }
  assert (Hhad2 : hadSession a2 = false).
  { unfold a2, onAuthStateChange, receiveSession. rewrite Hhad1. cbn. by case_decide. }
  assert (Happ3 : app a3 = setDraft (syncAll (setDraft (app a2) d)
                                       [mkItem localId (trim d) false 0]) []).
  { unfold a3. cbn [app setApp]. unfold handleSubmit. cbn [draft setDraft].
    rewrite (truthy_nonempty _ Hd). rewrite Happ2, Happ1. reflexivity. }
  assert (Happ4 : app a4 = app a3).
  { unfold a4, getSession_then, onAuthStateChange.
    assert (Hhad3 : hadSession a3 = false) by exact Hhad2.
    assert (Hsess3 : setSession (app a3) None = app a3).
    { rewrite Happ3, Happ2, Happ1.
      unfold syncAll, syncAll_in, persistGuestItems, clearGuestItems. cbn.
      destruct (hasLocalStorage (app a)) eqn:Hls; cbn; rewrite ?Hls;
        destruct (storageWritable (app a)); reflexivity. }
    case_decide; cbn -[receiveSession];
      rewrite receiveSession_no_edge by (left; cbn; unfold receiveSession;
                                         rewrite ?Hhad3; done);
      cbn -[receiveSession]; rewrite receiveSession_no_edge by auto;
      by rewrite !Hsess3. }
  split; [by rewrite Happ1|]. split; [done|]. split; [done|].
  split; [by rewrite Happ2, Happ1|]. split; [by rewrite Happ2|].
  split; [by rewrite Happ2|].
  assert (Hitems3 : items (app a3) = [mkItem localId (trim d) false 0]).
  { rewrite Happ3. cbn [items setDraft]. by rewrite items_syncAll. }
  split; [exact Hitems3|]. split; [by rewrite Happ4|]. split; [by rewrite Happ4|].
  intros Hls Hw. rewrite Happ4, Hitems3, Happ3, Happ2, Happ1.
  unfold syncAll, syncAll_in, persistGuestItems, loadGuestItems, clearGuestItems.
  cbn. rewrite Hls. cbn. rewrite Hls, Hw. cbn. by rewrite Hls.
Qed.

Lemma sign_out_then_guest_work_witness :
  let a := mkAuth (signedIn "u" (setItems guest0 sample)) true "signIn" "" "" "" "" "" "" false [] in
  let a2 := onAuthStateChange (handleSignOut a) "SIGNED_OUT" None in
  let a3 := setApp a2 (handleSubmit (setDraft (app a2) (str " Feed cat ")) "f") in
  let a4 := getSession_then false (onAuthStateChange a3 "SIGNED_OUT" None) None in
  items (app a2) = []
  ∧ items (app a4) = [mkItem "f" (str "Feed cat") false 0]
  ∧ loadGuestItems (app a4) = [mkItem "f" (str "Feed cat") false 0].
Proof.
  intros a a2 a3 a4.
  destruct (sign_out_then_guest_work a (str " Feed cat ") "f" "SIGNED_OUT" "SIGNED_OUT"
              ltac:(by vm_compute))
    as (_ & _ & _ & Hempty & _ & _ & Hitems3 & Hitems4 & _ & Hload).
  split; [exact Hempty|]. split.
  - etrans; [exact Hitems4 | exact Hitems3].
  - etrans; [exact (Hload eq_refl eq_refl) | exact Hitems3].
Defined.

(** X16.  When a guest signs in, the listener leaves the list on screen
    and the merge then starts from local storage: with storage available
    and writable, the guest items it will insert are exactly the list
    the last guest mutation left on screen; with storage missing or not
    writable it starts from what storage held before (nothing when
    storage is missing), whatever the screen shows.  The merge sets the
    loading flag, clears the error and issues its first [select] for the
    new user. *)
Theorem sign_in_handoff
    (a : AuthState) (l : list Item) (u event : string) :
  session (app a) = None → hasSupabase (app a) = true →
  let a1 := setApp a (syncAll (app a) l) in
  let a2 := onAuthStateChange a1 event (Some u) in
  items (app a2) = reindex l
  ∧ hadSession a2 = true
  ∧ ∃ c0, loadAndMerge (app a2) = Some c0
      ∧ isLoading c0.1 = true ∧ dataError c0.1 = ""
      ∧ items c0.1 = reindex l
      ∧ requests c0.1 = requests (app a) ++ [Select u]
      ∧ (hasLocalStorage (app a) = true → storageWritable (app a) = true →
           point c0.2 = AtFetch (reindex l))
      ∧ (hasLocalStorage (app a) = true → storageWritable (app a) = false →
           point c0.2 = AtFetch (reindex (loadGuestItems (app a))))
      ∧ (hasLocalStorage (app a) = false → point c0.2 = AtFetch []).
Proof.
  intros Hguest Hsb a1 a2.
  assert (Hsync : syncAll (app a) l = persistGuestItems (setItems (app a) (reindex l)) (reindex l)).
  { unfold syncAll, syncAll_in. by rewrite Hguest. }
  assert (Happ2 : app a2 = setSession (syncAll (app a) l) (Some u)).
  { transitivity (app (receiveSession a1 (Some u))).
    - unfold a2, onAuthStateChange. by case_decide.
    - by rewrite receiveSession_no_edge by (right; by eexists). }
  split; [by rewrite Happ2; cbn; rewrite items_syncAll|].
  split; [unfold a2, onAuthStateChange; by case_decide|].
  assert (Hsb2 : hasSupabase (app a2) = true).
  { rewrite Happ2, Hsync. unfold persistGuestItems. cbn.
    by destruct (hasLocalStorage (app a)), (storageWritable (app a)). }
  unfold loadAndMerge. rewrite Hsb2.
  assert (Hs2 : session (app a2) = Some u) by (by rewrite Happ2).
  rewrite Hs2. eexists. split; [reflexivity|]. cbn [fst snd point].
  rewrite loadGuestItems_start.
  split; [done|]. split; [done|].
  split; [by rewrite Happ2; cbn; rewrite items_syncAll|].
  split.
  { rewrite Happ2, Hsync. unfold persistGuestItems. cbn.
    by destruct (hasLocalStorage (app a)), (storageWritable (app a)). }
  rewrite Happ2, Hsync. unfold persistGuestItems, loadGuestItems. cbn.
  split; [|split].
  - intros Hls Hw. rewrite Hls, Hw. cbn. rewrite Hls.
    change (AtFetch (reindex (reindex l)) = AtFetch (reindex l)).
    f_equal. apply reindex_dense, dense_reindex.
  - intros Hls Hw. rewrite Hls, Hw. cbn. by rewrite Hls.
  - intros Hls. rewrite Hls. cbn. by rewrite Hls.
Qed.

Lemma sign_in_handoff_witness :
  let a2 := onAuthStateChange (setApp anonymous (syncAll (app anonymous) [item_d; item_a]))
              "SIGNED_IN" (Some "u") in
  ∃ c0, loadAndMerge (app a2) = Some c0
        ∧ point c0.2 = AtFetch [with_position item_d 0; with_position item_a 1].
Proof.
  intros a2.
  destruct (sign_in_handoff anonymous [item_d; item_a] "u" "SIGNED_IN" eq_refl eq_refl)
    as (_ & _ & c0 & Hstart & _ & _ & _ & _ & Hpoint & _).
  exists c0. split; [exact Hstart | exact (Hpoint eq_refl eq_refl)].
Defined.

(** ** Authentication forms *)

(** X17.  The password-update form sends [updateUser] when the client
    is configured, the new password is not empty and the confirmation
    equals it, and only then: every rejection sends nothing and leaves a
    message in the error slot (an empty new password is reported before
    a mismatch).  The sign-in form sends nothing without a configured
    client or, in reset mode, without an email; otherwise it sends
    exactly one request, chosen by the mode.  Neither form touches the
    list state, and both clear the previous notice. *)
Theorem auth_forms_validate (a : AuthState) :
  let valid := hasSupabase (app a) = true ∧ newPassword a ≠ ""
               ∧ newPassword a = confirmPassword a in
  let blocked := hasSupabase (app a) = false
                 ∨ (authMode a = "resetRequest" ∧ email a = "") in
  (valid →
     authRequests (handlePasswordUpdate a) = authRequests a ++ [UpdateUser (newPassword a)]
     ∧ authError (handlePasswordUpdate a) = "")
  ∧ (¬ valid →
       authRequests (handlePasswordUpdate a) = authRequests a
       ∧ authError (handlePasswordUpdate a) ≠ "")
  ∧ (hasSupabase (app a) = true → newPassword a = "" →
       authError (handlePasswordUpdate a) = "Enter a new password.")
  ∧ (blocked →
       authRequests (handleAuthSubmit a) = authRequests a
       ∧ authError (handleAuthSubmit a) ≠ "")
  ∧ (¬ blocked →
       authError (handleAuthSubmit a) = ""
       ∧ authRequests (handleAuthSubmit a)
         = authRequests a
           ++ [if decide (authMode a = "resetRequest") then ResetPasswordForEmail (email a)
               else if decide (authMode a = "signUp") then SignUp (email a) (password a)
               else SignInWithPassword (email a) (password a)])
  ∧ app (handlePasswordUpdate a) = app a ∧ app (handleAuthSubmit a) = app a
  ∧ authNotice (handlePasswordUpdate a) = "" ∧ authNotice (handleAuthSubmit a) = "".
Proof.
  intros valid blocked. unfold valid, blocked, handlePasswordUpdate, handleAuthSubmit.
  cbn. split; [|split; [|split; [|split; [|split]]]].
  - intros (-> & Hnew & Hconf). cbn.
    rewrite decide_False by done. rewrite decide_False by (intros H; by apply H).
    done.
  - intros Hinvalid. destruct (hasSupabase (app a)); cbn; [|done].
    destruct (decide (newPassword a = "")); [done|].
    destruct (decide (newPassword a ≠ confirmPassword a)) as [|Heq]; [done|].
    destruct Hinvalid. split; [done|]. split; [done|].
    by destruct (decide (newPassword a = confirmPassword a)).
  - intros -> Hnew. cbn. by rewrite decide_True.
  - intros [->|[Hmode Hmail]]; cbn; [done|].
    destruct (hasSupabase (app a)); cbn; [|done].
    by rewrite decide_True, decide_True by done.
  - intros Hfree. destruct (hasSupabase (app a)); cbn; [|destruct Hfree; by left].
    destruct (decide (authMode a = "resetRequest")) as [Hmode|Hmode].
    + destruct (decide (email a = "")) as [Hmail|Hmail]; [|done].
      destruct Hfree. by right.
    + by destruct (decide (authMode a = "signUp")).
  - destruct (hasSupabase (app a)); cbn; repeat case_decide; done.
Qed.

Lemma auth_forms_validate_witness :
  let a := mkAuth guest0 false "resetRequest" "" "" "" "" "pw" "pw" false [] in
  authRequests (handlePasswordUpdate a) = [UpdateUser "pw"]
  ∧ authRequests (handleAuthSubmit a) = []
  ∧ authError (handleAuthSubmit a) ≠ "".
Proof.
  intros a.
  destruct (auth_forms_validate a) as (Hvalid & _ & _ & Hblocked & _).
  destruct Hvalid as [Hsent _]; [by repeat split|].
  destruct Hblocked as [Hnone Herr]; [right; by split|].
  split; [exact Hsent|]. split; [exact Hnone | exact Herr].
Defined.

(** ** The reply to a signed-in add *)

(** X18.  Signed in, submitting a draft changes neither the list nor the
    draft; they change when the insert is answered.  On an error the
    message is shown and list, draft, guest blob and request log stay as
    they are, so the typed text is not lost; with no row returned
    nothing changes.  On success the draft is cleared and the list
    becomes the list as it was at submit time with the new row spliced
    in, whatever the list is by then, and this list is upserted: an item
    deleted while the insert was in flight is back in the list. *)
Theorem signed_in_add_reply
    (st : AppState) (u localId : string) (reply : Reply) (current : AppState) :
  session st = Some u → hasSupabase st = true → trim (draft st) ≠ [] →
  let submitted := handleSubmit st localId in
  items submitted = items st ∧ draft submitted = draft st
  ∧ (∀ message, error reply = Some message →
       handleSubmit_then st reply current = setDataError current message)
  ∧ (error reply = None → data reply ≫= head = None →
       handleSubmit_then st reply current = current)
  ∧ (∀ inserted, error reply = None → data reply ≫= head = Some inserted →
       let l' := items (handleSubmit_then st reply current) in
       draft (handleSubmit_then st reply current) = []
       ∧ id <$> l' ≡ₚ row_id inserted :: (id <$> items st)
       ∧ requests (handleSubmit_then st reply current)
         = requests current ++ [Upsert (upsertPayload u l')]
       ∧ (∀ did, did ∈ id <$> items st →
            let later := after (handleDelete submitted did) in
            (did ∉ id <$> items later)
            ∧ did ∈ id <$> items (handleSubmit_then st reply later))).
Proof.
  intros Hu Hsb Hdraft submitted.
  assert (Hsub : submitted
            = issue st (Insert [mkInsertRow (trim (draft st)) false
                                  (Z.of_nat (insertIndexOf (items st))) u])).
  { unfold submitted, handleSubmit. by rewrite (truthy_nonempty _ Hdraft), Hu, Hsb. }
  split; [by rewrite Hsub|]. split; [by rewrite Hsub|].
  unfold handleSubmit_then.
  split; [by intros message ->|]. split; [by intros -> ->|].
  intros inserted Herr Hdata. rewrite Herr, Hdata.
  set (nextItems := splice_in (items st) (insertIndexOf (items st))
                      (mkItem (row_id inserted) (row_title inserted)
                              (row_completed inserted)
                              (Z.of_nat (insertIndexOf (items st))))).
  assert (Hitems : ∀ s, items (setDraft (syncAll_in st nextItems s) []) = reindex nextItems).
  { intros s. cbn [items setDraft]. apply items_syncAll_in. }
  assert (Hids : id <$> reindex nextItems ≡ₚ row_id inserted :: (id <$> items st)).
  { unfold nextItems. by rewrite id_reindex, splice_in_perm. }
  cbv zeta. rewrite !Hitems.
  split; [done|]. split; [exact Hids|]. split.
  - cbn [requests setDraft]. unfold syncAll_in. by rewrite Hu, Hsb.
  - intros did Hdid. split.
    + rewrite handleDelete_items, id_reindex.
      intros Hin. apply list_elem_of_fmap in Hin as (x & Hid & Hx).
      by apply list_elem_of_filter in Hx as [Hx _].
    + rewrite Hitems, Hids. by right.
Qed.

Lemma signed_in_add_reply_witness :
  let st := setDraft (signedIn "u" (setItems guest0 sample)) (str "Feed cat") in
  let reply := mkReply (Some [mkRow "f" (str "Feed cat") false (Some 3%Z)]) None in
  let later := after (handleDelete (handleSubmit st "f") "b") in
  handleSubmit_then st (mkReply None (Some "offline")) later = setDataError later "offline"
  ∧ ("b" ∉ id <$> items later)
  ∧ "b" ∈ id <$> items (handleSubmit_then st reply later).
Proof.
  intros st reply later.
  destruct (signed_in_add_reply st "u" "f" (mkReply None (Some "offline")) later
              eq_refl eq_refl ltac:(by vm_compute)) as (_ & _ & Herr & _).
  destruct (signed_in_add_reply st "u" "f" reply later
              eq_refl eq_refl ltac:(by vm_compute)) as (_ & _ & _ & _ & Hok).
  destruct (Hok (mkRow "f" (str "Feed cat") false (Some 3%Z)) eq_refl eq_refl)
    as (_ & _ & _ & Hback).
  destruct (Hback "b") as [Hgone Hthere].
  { cbn. rewrite !elem_of_cons. auto. }
  split; [exact (Herr "offline" eq_refl)|]. split; [exact Hgone | exact Hthere].
Defined.

(** ** Editing with the keyboard *)

Lemma NoDup_id_inj (l : list Item) x z :
  NoDup (id <$> l) → x ∈ l → z ∈ l → id z = id x → z = x.
Proof.
  intros Hnd Hx Hz Hid.
  apply list_elem_of_lookup in Hx as [i Hi].
  apply list_elem_of_lookup in Hz as [j Hj].
  assert (j = i) as ->; [|congruence].
  apply (NoDup_lookup (id <$> l) j i (id x) Hnd);
    rewrite list_lookup_fmap; [rewrite Hj; cbn; by rewrite Hid | by rewrite Hi].
Qed.

(** X19.  In the edit field, Escape leaves edit mode and discards
    whatever was typed: no list update runs and list, storage and
    request log are as before.  Enter commits.  Opening an item for
    editing and pressing Enter without typing leaves every item's id,
    content and flag as they were, when ids are unique and the item's
    content is trimmed and not empty (as the handlers always store it);
    keys other than Enter and Escape do nothing. *)
Theorem edit_keys (st : AppState) (x : Item) (typed : jsstring) (key : string) :
  let editing := setEditingText (startEdit st x) typed in
  after (handleEditKeyDown editing "Escape" (id x)) = setEditingId editing None
  ∧ returned (handleEditKeyDown editing "Escape" (id x)) = None
  ∧ items (after (handleEditKeyDown editing "Escape" (id x))) = items st
  ∧ handleEditKeyDown editing "Enter" (id x) = commitEdit editing (id x)
  ∧ (key ≠ "Enter" → key ≠ "Escape" →
       handleEditKeyDown editing key (id x) = mkOutcome editing None)
  ∧ (NoDup (id <$> items st) → x ∈ items st →
     content x ≠ [] → trim (content x) = content x →
       payload <$> items (after (handleEditKeyDown (startEdit st x) "Enter" (id x)))
       = payload <$> items st
       ∧ editingId (after (handleEditKeyDown (startEdit st x) "Enter" (id x))) = None).
Proof.
  intros editing. unfold handleEditKeyDown.
  split; [done|]. split; [done|]. split; [done|]. split; [done|].
  split.
  - intros Henter Hescape. by rewrite !decide_False by done.
  - intros Hnd Hx Hcontent Htrimmed. cbn [decide]. rewrite decide_True by done.
    unfold commitEdit, startEdit. cbn [editingText setEditingText].
    rewrite Htrimmed, (truthy_nonempty _ Hcontent).
    cbn [after items setEditingId editingId]. split; [|done].
    rewrite items_syncAll, payload_reindex.
    cbn [items setEditingText setEditingId].
    rewrite <- list_fmap_compose. apply list_fmap_ext.
    intros i z Hz. cbn. case_decide as Hid; [|done].
    apply list_elem_of_lookup_2 in Hz.
    by rewrite (NoDup_id_inj _ x z Hnd Hx Hz Hid).
Qed.

Lemma edit_keys_witness :
  let st := setItems guest0 sample in
  payload <$> items (after (handleEditKeyDown (startEdit st item_b) "Enter" "b"))
  = payload <$> sample
  ∧ items (after (handleEditKeyDown (setEditingText (startEdit st item_b) (str "typo"))
                    "Escape" "b")) = sample
  ∧ handleEditKeyDown st "Tab" "b" = mkOutcome st None.
Proof.
  intros st.
  destruct (edit_keys st item_b (str "typo") "Tab")
    as (_ & _ & Hescape & _ & Hother & Henter).
  destruct Henter as [Hsame _].
  - refine (bool_decide_unpack _ _). vm_compute. exact I.
  - by apply (list_elem_of_lookup_2 _ 1%nat).
  - by vm_compute.
  - reflexivity.
  - split; [exact Hsame|]. split; [exact Hescape|]. reflexivity.
Defined.

(** ** After the insert of the merge *)

(** X20.  Once the bulk insert of a run that is not cancelled has
    succeeded, the guest blob is gone whatever the second fetch returns.
    If that fetch succeeds with rows, they are shown in normal form and
    written back with one upsert; if it fails, the error is shown and
    the list falls back to [existing], the remote list from before the
    insert, so the guest items just inserted are not on screen; if it
    returns neither rows nor an error, the list is left as it is.  In
    all three cases the loading flag is cleared and the run has
    returned. *)
Theorem merge_refetch_outcome
    (st : AppState) (m : Merge) (existing : list Item) (reply : Reply) :
  point m = AtInsert existing → cancelled m = false →
  hasLocalStorage st = true →
  let c := run (st, m) [InsertReplied None; SelectReplied reply] in
  guestBlob c.1 = Absent ∧ loadGuestItems c.1 = []
  ∧ isLoading c.1 = false ∧ point c.2 = Returned
  ∧ (∀ refreshed, error reply = None → data reply = Some refreshed →
       items c.1 = orderByCompletion (normalizeRows refreshed)
       ∧ normalized (items c.1)
       ∧ requests c.1 = requests st ++ [Select (user m); Upsert (upsertPayload (user m) (items c.1))])
  ∧ (∀ message, error reply = Some message →
       items c.1 = existing ∧ dataError c.1 = message
       ∧ requests c.1 = requests st ++ [Select (user m)])
  ∧ (error reply = None → data reply = None →
       items c.1 = items st ∧ requests c.1 = requests st ++ [Select (user m)]).
Proof.
  intros Hpoint Hcancel Hls c.
  assert (Hc : c = afterRefetch existing reply (moveTo m (AtRefetch existing))
                     (issue (clearGuestItems st) (Select (user m)))).
  { unfold c, run. cbn [foldl step]. rewrite Hpoint. unfold afterInsert.
    rewrite Hcancel. done. }
  assert (Hclear : clearGuestItems st = setGuestBlob st Absent)
    by (unfold clearGuestItems; by rewrite Hls).
  rewrite Hc, Hclear. unfold afterRefetch. cbn [cancelled moveTo]. rewrite Hcancel.
  unfold loadGuestItems.
  destruct (error reply) as [message|]; [|destruct (data reply) as [refreshed|]];
    cbn; rewrite Hls.
  - do 4 (split; [done|]). split; [by intros r [=]|].
    split; [by intros ? [= <-]|]. by intros [=].
  - do 4 (split; [done|]). split; [|split; [by intros ? [=] | by intros _ [=]]].
    intros r _ [= <-]. split; [done|].
    split; [apply normalized_orderByCompletion | by rewrite <- app_assoc].
  - do 4 (split; [done|]). split; [by intros r _ [=]|].
    split; [by intros ? [=] | done].
Qed.

Lemma merge_refetch_outcome_witness :
  let c0 := step (started merging) (SelectReplied (mkReply (Some [row_1; row_2]) None)) in
  let failed := run c0 [InsertReplied None; SelectReplied (mkReply None (Some "timeout"))] in
  guestBlob failed.1 = Absent
  ∧ items failed.1 = orderByCompletion (normalizeRows [row_1; row_2])
  ∧ dataError failed.1 = "timeout".
Proof.
  intros c0 failed.
  destruct (merge_refetch_outcome c0.1 c0.2 (orderByCompletion (normalizeRows [row_1; row_2]))
              (mkReply None (Some "timeout")) eq_refl eq_refl eq_refl)
    as (Hblob & _ & _ & _ & _ & Herr & _).
  destruct (Herr "timeout" eq_refl) as (Hitems & Hmsg & _).
  split; [exact Hblob|]. split; [exact Hitems | exact Hmsg].
Defined.

(** ** Password recovery and drag markers *)

(** X21.  A password-recovery event opens the reset form with both
    password fields empty and leaves the list and the guest blob as they
    are when it comes with a session.  From there a valid new password
    is sent once; when the update succeeds the form closes, both
    password fields are emptied and the mode returns to sign-in; when it
    fails the form stays open with the error and the typed passwords are
    kept for another try. *)
Theorem password_recovery_flow
    (a : AuthState) (u pw message : string) :
  hasSupabase (app a) = true → pw ≠ "" →
  let opened := onAuthStateChange a "PASSWORD_RECOVERY" (Some u) in
  let typed := setConfirmPassword (setNewPassword opened pw) pw in
  let sent := handlePasswordUpdate typed in
  isResettingPassword opened = true ∧ authMode opened = "reset"
  ∧ newPassword opened = "" ∧ confirmPassword opened = ""
  ∧ items (app opened) = items (app a) ∧ guestBlob (app opened) = guestBlob (app a)
  ∧ authRequests sent = authRequests a ++ [UpdateUser pw]
  ∧ (let done := passwordUpdate_then None sent in
     isResettingPassword done = false ∧ authMode done = "signIn"
     ∧ newPassword done = "" ∧ confirmPassword done = "" ∧ authError done = "")
  ∧ (let failed := passwordUpdate_then (Some message) sent in
     isResettingPassword failed = true ∧ authError failed = message
     ∧ newPassword failed = pw ∧ confirmPassword failed = pw
     ∧ authRequests (handlePasswordUpdate failed) = authRequests sent ++ [UpdateUser pw]).
Proof.
  intros Hsb Hpw opened typed sent.
  assert (Happ : app opened = setSession (app a) (Some u)).
  { transitivity (app (receiveSession a (Some u))).
    - unfold opened, onAuthStateChange. by rewrite decide_True.
    - by rewrite receiveSession_no_edge by (right; by eexists). }
  assert (Hopened : isResettingPassword opened = true ∧ authMode opened = "reset"
                    ∧ newPassword opened = "" ∧ confirmPassword opened = ""
                    ∧ authRequests opened = authRequests a).
  { unfold opened, onAuthStateChange, receiveSession. rewrite decide_True by done.
    cbn. by destruct (hadSession a). }
  destruct Hopened as (Hreset & Hmode & Hnew & Hconf & Hreq).
  assert (Hsent : sent = issueAuth (setAuthNotice (setAuthError typed "") "") (UpdateUser pw)).
  { unfold sent, handlePasswordUpdate. cbn. rewrite Happ. cbn. rewrite Hsb. cbn.
    rewrite decide_False by done. by rewrite decide_False by (intros H; by apply H). }
  split; [done|]. split; [done|]. split; [done|]. split; [done|].
  split; [by rewrite Happ|]. split; [by rewrite Happ|].
  split; [rewrite Hsent; cbn; by rewrite Hreq|].
  split.
  - rewrite Hsent. cbn. done.
  - rewrite Hsent. cbn. split; [done|]. split; [done|]. split; [done|]. split; [done|].
    unfold handlePasswordUpdate. cbn. rewrite Happ. cbn. rewrite Hsb. cbn.
    rewrite decide_False by done. by rewrite decide_False by (intros H; by apply H).
Qed.

Lemma password_recovery_flow_witness :
  let opened := onAuthStateChange anonymous "PASSWORD_RECOVERY" (Some "u") in
  let sent := handlePasswordUpdate (setConfirmPassword (setNewPassword opened "s3cret") "s3cret") in
  authRequests sent = [UpdateUser "s3cret"]
  ∧ authMode (passwordUpdate_then None sent) = "signIn"
  ∧ items (app opened) = sample.
Proof.
  intros opened sent.
  destruct (password_recovery_flow anonymous "u" "s3cret" "weak" eq_refl
              ltac:(discriminate))
    as (_ & _ & _ & _ & Hitems & _ & Hsent & Hdone & _).
  destruct Hdone as (_ & Hmode & _).
  split; [exact Hsent|]. split; [exact Hmode | exact Hitems].
Defined.

(** Starting a drag marks the dragged item and leaves edit mode without
    committing the edit; cancelling the drag, dropping outside any row
    or dropping the item on itself removes the marker and runs no list
    update: the list, local storage and the request log are as they were
    before the drag started. *)
Lemma drag_without_drop_target (st : AppState) (active : string) :
  let dragging := onDragStart st active in
  let idle := setActiveId (setEditingId st None) None in
  activeId dragging = Some active ∧ editingId dragging = None
  ∧ items dragging = items st
  ∧ onDragCancel dragging = idle
  ∧ onDragEnd dragging active None = mkOutcome idle None
  ∧ onDragEnd dragging active (Some active) = mkOutcome idle None
  ∧ items idle = items st ∧ guestBlob idle = guestBlob st
  ∧ requests idle = requests st ∧ editingText idle = editingText st.
Proof.
  intros dragging idle. unfold dragging, idle, onDragStart, onDragCancel, onDragEnd.
  rewrite decide_True by done. done.
Qed.

(** X22.  Asking for a reset mail: "Forgot your password?" switches the
    form to reset mode and empties the password field; submitting with
    an email sends one reset request for it; when it succeeds the form
    shows the confirmation screen with a notice, when it fails the form
    stays in reset mode with the error, so it can be submitted again.
    Leaving reset mode with [switchAuthMode] and signing in sends the
    credentials typed, and a successful sign-in empties the email and
    password fields while a failed one keeps them. *)
Theorem reset_request_flow (a : AuthState) (mail pw message : string) :
  hasSupabase (app a) = true → mail ≠ "" →
  let asking := setEmail (handlePasswordReset a) mail in
  let sent := handleAuthSubmit asking in
  authMode asking = "resetRequest" ∧ password asking = ""
  ∧ authRequests sent = authRequests a ++ [ResetPasswordForEmail mail]
  ∧ authMode (resetRequest_then None sent) = "resetSent"
  ∧ authNotice (resetRequest_then None sent) ≠ ""
  ∧ authMode (resetRequest_then (Some message) sent) = "resetRequest"
  ∧ authError (resetRequest_then (Some message) sent) = message
  ∧ authRequests (handleAuthSubmit (resetRequest_then (Some message) sent))
    = authRequests sent ++ [ResetPasswordForEmail mail]
  ∧ (let signing := handleAuthSubmit (setPassword (switchAuthMode sent "signIn") pw) in
     authRequests signing = authRequests sent ++ [SignInWithPassword mail pw]
     ∧ email (signIn_then None signing) = "" ∧ password (signIn_then None signing) = ""
     ∧ email (signIn_then (Some message) signing) = mail
     ∧ password (signIn_then (Some message) signing) = pw
     ∧ authError (signIn_then (Some message) signing) = message)
  ∧ app (resetRequest_then None sent) = app a.
Proof.
  intros Hsb Hmail asking sent.
  assert (Hsent : sent = issueAuth (setAuthNotice (setAuthError asking "") "")
                           (ResetPasswordForEmail mail)).
  { unfold sent, handleAuthSubmit. cbn. rewrite Hsb. cbn.
    rewrite decide_True by done. by rewrite decide_False by done. }
  split; [done|]. split; [done|]. split; [by rewrite Hsent|].
  split; [by rewrite Hsent|]. split; [by rewrite Hsent|].
  split; [by rewrite Hsent|]. split; [by rewrite Hsent|].
  split; [|split; [|by rewrite Hsent]].
  - rewrite Hsent. unfold handleAuthSubmit. cbn. rewrite Hsb. cbn.
    rewrite decide_True by done. by rewrite decide_False by done.
  - rewrite Hsent. unfold handleAuthSubmit. cbn. rewrite Hsb. cbn. done.
Qed.

Lemma reset_request_flow_witness :
  let sent := handleAuthSubmit (setEmail (handlePasswordReset anonymous) "me@example.org") in
  authRequests sent = [ResetPasswordForEmail "me@example.org"]
  ∧ authMode (resetRequest_then None sent) = "resetSent".
Proof.
  intros sent.
  destruct (reset_request_flow anonymous "me@example.org" "pw" "no such user" eq_refl
              ltac:(discriminate)) as (_ & _ & Hsent & Hmode & _).
  split; [exact Hsent | exact Hmode].
Defined.
